(** * CK2ToEU4: the world-building passes of [CK2::World]

    A shallow embedding of the passes that [CK2::World::World] runs after
    the savegame has been parsed and linked (file
    [Source/Mappers/MonumentsMapper/MonumentsMapping.cpp], which carries
    the body of [World.cpp]): heir resolution, barony merging, the
    shattering of the Holy Roman Empire, the recognition of independent
    titles, vassal splitting, the province watchdog and the recovery of
    missing religion and culture definitions.

    Conventions of the embedding.
    - A [std::map] is a [gmap]/[gset]; a loop over it visits the keys in
      ascending order ([in_order], [tags_in_order]).
    - Titles are shared objects ([std::shared_ptr<Title>]) reachable from
      the title table, from vassal maps and from the independent-title
      map.  They live in one table keyed by tag; every reference to a
      title is its tag and is resolved through that table, so that a
      mutation through one reference is seen through all of them.
    - [int] identifiers are in [Z]; identifier [0] is "none".
    - Logging is an explicit list of entries returned next to the state. *)

From Stdlib Require Import ZArith QArith Qround String Ascii List SpecFloat.
From Stdlib Require Floats Uint63.
From stdpp Require Import gmap strings list sorting fin_maps pretty.

Set Warnings "-register-all,-clear-no-such-hyp".
#[local] Open Scope Z_scope.

(** ** Logging *)

Inductive LogLevel := Info | Warning | Error.

Definition LogEntry : Type := LogLevel * string.

Definition is_warning (e : LogEntry) : bool :=
  match e.1 with Warning => true | _ => false end.

(** ** Dates, pointers, characters *)

Record date := mkDate { year : Z; month : Z; day : Z }.

(** [date("1.1.1")], the value a character's death date has while the
    character is alive. *)
Definition nullDate : date := mkDate 1 1 1.

Definition date_eqb (a b : date) : bool :=
  (year a =? year b) && (month a =? month b) && (day a =? day b).

(** A [std::shared_ptr<A>]: the address of the shared object and the
    object found there.  Ordering two pointers orders their addresses. *)
Record shared_ptr (A : Type) := mkPtr { address : Z; pointee : A }.
Arguments mkPtr {A} _ _.
Arguments address {A} _.
Arguments pointee {A} _.

(** [CK2::Character], with the members the passes below read or write.
    [prestige] is the rational number denoted by the [double] read from
    the save. *)
Inductive Character := mkCharacter {
  charID : Z;
  female : bool;
  prestige : Q;
  deathDate : date;
  government : string;
  children : gmap Z (shared_ptr Character);
  heir : Z * option (shared_ptr Character)
}.

(** [std::pair<int, std::shared_ptr<Character>>]; the default-constructed
    pair is [(0, nullptr)]. *)
Definition CharRef : Type := Z * option (shared_ptr Character).
Definition noChar : CharRef := (0, None).

Definition setHeir (h : CharRef) (c : Character) : Character :=
  mkCharacter (charID c) (female c) (prestige c) (deathDate c)
              (government c) (children c) h.

Definition isAlive (c : Character) : bool := date_eqb (deathDate c) nullDate.

(** [lround]: nearest integer, halfway cases away from zero. *)
Definition lround (q : Q) : Z :=
  if Qle_bool 0 q then Qfloor (Qplus q (1 # 2))
  else Z.opp (Qfloor (Qplus (Qopp q) (1 # 2))).

(** The conversion of a [long] to [int], as it happens when a
    [std::pair<long, ...>] is stored as a [std::pair<int, ...>]: the
    value modulo [2^32], taken in the range of a 32-bit [int]. *)
Definition to_int (z : Z) : Z := (z + 2 ^ 31) mod 2 ^ 32 - 2 ^ 31.

(** ** Ordered traversal of maps and sorting of child vectors *)

Definition key_le {V : Type} (x y : Z * V) : Prop := x.1 <= y.1.

#[global] Instance key_le_dec {V} : RelDecision (@key_le V).
Proof. intros x y. unfold key_le. apply _. Defined.

(** The entries of a [std::map<int, V>] in iteration order. *)
Definition in_order {V : Type} (m : gmap Z V) : list (Z * V) :=
  merge_sort key_le (map_to_list m).

(** The keys of a [std::map<std::string, V>] in iteration order
    ([std::string] compares bytewise). *)
Definition tags_in_order (s : gset string) : list string :=
  merge_sort String.le (elements s).

(** [operator<] on [std::pair<int, std::shared_ptr<Character>>] is
    lexicographic: first the integer, then the pointer.  [ptr_pair_le]
    is the induced non-strict order [std::sort] arranges a vector by. *)
Definition ptr_pair_leb {A : Type} (x y : Z * shared_ptr A) : bool :=
  (x.1 <? y.1) || ((x.1 =? y.1) && (address x.2 <=? address y.2)).

Definition ptr_pair_le {A : Type} (x y : Z * shared_ptr A) : Prop :=
  ptr_pair_leb x y = true.

#[global] Instance ptr_pair_le_dec {A} : RelDecision (@ptr_pair_le A).
Proof. intros x y. unfold ptr_pair_le. apply _. Defined.

Definition ChildVector : Type := list (Z * shared_ptr Character).

(** [std::sort(v.begin(), v.end())] *)
Definition sort_ascending (v : ChildVector) : ChildVector :=
  merge_sort ptr_pair_le v.

(** [std::sort(v.rbegin(), v.rend())]: the reversed view is put in
    ascending order, so the vector itself ends up descending. *)
Definition sort_descending (v : ChildVector) : ChildVector :=
  reverse (merge_sort ptr_pair_le v).

(** ** Succession

    Every resolver receives the holder and returns the holder as
    [setHeir] leaves it. *)

Module Succession.

Definition toRef (child : Z * shared_ptr Character) : CharRef :=
  (child.1, Some child.2).

(** [resolveTurkish]: the vector pairs each child with its rounded
    prestige, stored in the [int] of the pair; after sorting, the first
    living entry becomes heir. *)
Definition prestigeVector (holder : Character) : ChildVector :=
  map (fun child => (to_int (lround (prestige (pointee child.2))), child.2))
      (in_order (children holder)).

Fixpoint firstLiving (v : ChildVector) : option (shared_ptr Character) :=
  match v with
  | [] => None
  | child :: rest =>
      if isAlive (pointee child.2) then Some child.2 else firstLiving rest
  end.

Definition resolveTurkish (holder : Character) : Character :=
  match firstLiving (sort_ascending (prestigeVector holder)) with
  | Some p => setHeir (charID (pointee p), Some p) holder
  | None => holder
  end.

(** The candidate scan of [resolvePrimogeniture]: one pass over the
    sorted vector, carrying the best son and the best daughter. *)
Definition scanPrimogenitureStep (acc : CharRef * CharRef)
    (child : Z * shared_ptr Character) : CharRef * CharRef :=
  let '(son, daughter) := acc in
  let c := pointee child.2 in
  if negb (isAlive c) then (son, daughter) else
  let son1 :=
    if (son.1 =? 0) && negb (female c) then toRef child else son in
  let son2 :=
    if negb (son1.1 =? 0) && negb (female c) && (son1.1 =? child.1 - 1)
    then toRef child else son1 in
  let daughter1 :=
    if (daughter.1 =? 0) && female c then toRef child else daughter in
  let daughter2 :=
    if negb (daughter1.1 =? 0) && female c && (daughter1.1 =? child.1 - 1)
    then toRef child else daughter1 in
  (son2, daughter2).

Definition scanPrimogeniture (v : ChildVector) : CharRef * CharRef :=
  foldl scanPrimogenitureStep (noChar, noChar) v.

(** The choice between the candidates by gender law, with the
    adjacent-identifier override of the [true_cognatic] branch. *)
Definition pickPrimogeniture (genderLaw : string) (cands : CharRef * CharRef)
    (holder : Character) : Character :=
  let '(son, daughter) := cands in
  if (String.eqb genderLaw "agnatic" || String.eqb genderLaw "cognatic")
       && negb (son.1 =? 0)
  then setHeir son holder
  else if String.eqb genderLaw "cognatic" && negb (daughter.1 =? 0)
  then setHeir daughter holder
  else if String.eqb genderLaw "true_cognatic"
            && (negb (son.1 =? 0) || negb (daughter.1 =? 0))
  then
    if negb (son.1 =? 0) && negb (daughter.1 =? 0) then
      let h1 := if son.1 <? daughter.1 then setHeir son holder
                else setHeir daughter holder in
      let h2 := if son.1 =? daughter.1 - 1 then setHeir daughter h1 else h1 in
      if daughter.1 =? son.1 - 1 then setHeir son h2 else h2
    else if negb (son.1 =? 0) then setHeir son holder
    else setHeir daughter holder
  else holder.

(** The primogeniture strategy run on a given ordering of the children. *)
Definition primogenitureOn (v : ChildVector) (genderLaw : string)
    (holder : Character) : Character :=
  pickPrimogeniture genderLaw (scanPrimogeniture v) holder.

Definition resolvePrimogeniture (genderLaw : string) (holder : Character)
    : Character :=
  primogenitureOn (sort_ascending (in_order (children holder)))
                  genderLaw holder.

(** [resolveUltimogeniture]: its own scan and its own choice. *)
Definition scanUltimogenitureStep (acc : CharRef * CharRef)
    (child : Z * shared_ptr Character) : CharRef * CharRef :=
  let '(son, daughter) := acc in
  let c := pointee child.2 in
  if negb (isAlive c) then (son, daughter) else
  let son1 :=
    if (son.1 =? 0) && negb (female c) then toRef child else son in
  let daughter1 :=
    if (daughter.1 =? 0) && female c then toRef child else daughter in
  (son1, daughter1).

Definition scanUltimogeniture (v : ChildVector) : CharRef * CharRef :=
  foldl scanUltimogenitureStep (noChar, noChar) v.

Definition pickUltimogeniture (genderLaw : string) (cands : CharRef * CharRef)
    (holder : Character) : Character :=
  let '(son, daughter) := cands in
  if (String.eqb genderLaw "agnatic" || String.eqb genderLaw "cognatic")
       && negb (son.1 =? 0)
  then setHeir son holder
  else if String.eqb genderLaw "cognatic" && negb (daughter.1 =? 0)
  then setHeir daughter holder
  else if String.eqb genderLaw "true_cognatic"
            && (negb (son.1 =? 0) || negb (daughter.1 =? 0))
  then
    if negb (son.1 =? 0) && negb (daughter.1 =? 0) then
      if son.1 <? daughter.1 then setHeir son holder
      else setHeir daughter holder
    else if negb (son.1 =? 0) then setHeir son holder
    else setHeir daughter holder
  else holder.

Definition youngestFirst (holder : Character) : ChildVector :=
  sort_descending (in_order (children holder)).

Definition resolveUltimogeniture (genderLaw : string) (holder : Character)
    : Character :=
  pickUltimogeniture genderLaw (scanUltimogeniture (youngestFirst holder))
                     holder.


(** A living child with the given identifier, sex and prestige. *)
Definition livingChild (addr id : Z) (isFemale : bool) (p : Q)
    : shared_ptr Character :=
  mkPtr addr (mkCharacter id isFemale p nullDate "" ∅ noChar).

Definition parentOf (kids : list (shared_ptr Character)) : Character :=
  mkCharacter 1 false 0 nullDate "feudal_government"
    (list_to_map (map (fun p => (charID (pointee p), p)) kids)) noChar.

(** A candidate is [below] a key when it is unset or has a larger
    identifier: the state of the scan over a descending vector. *)
Definition below (k : Z) (r : CharRef) : Prop := r.1 = 0 ∨ k < r.1.

(** A holder with a living son 10 and a living daughter 11. *)
Definition twinsFamily : Character :=
  parentOf [livingChild 100 10 false 0; livingChild 200 11 true 0].

(** A holder with two living sons 10 and 11. *)
Definition brothersFamily : Character :=
  parentOf [livingChild 100 10 false 0; livingChild 200 11 false 0].

(** A holder with three living children of prestige 5, 20 and 9. *)
Definition turkishFamily : Character :=
  parentOf [livingChild 100 2 false 5; livingChild 200 3 false 20;
            livingChild 300 4 false 9].

End Succession.

(** ** Titles *)

(** [CK2::Title], with the members the passes below read or write.
    - [holder] is [getHolder().first]; [getHolder().second] is the
      character filed under that identifier in the character table.
    - [liege] and [deJureLiege] are [getLiege().first] and
      [getDeJureLiege().first]: the tag of the liege title, empty when
      there is none.
    - [vassals] are the keys of the vassal map, [provinces] the keys of
      the province map. *)
Record Title := mkTitle {
  name : string;
  holder : Z;
  liege : string;
  deJureLiege : string;
  vassals : gset string;
  provinces : gset Z;
  inHRE : bool;
  HREEmperor : bool;
  generatedLiege : string;
  generatedVassals : gset string
}.

Module TitleOps.

(** Modelled from the spec: [Title::clearVassals] is declared in
    [Title.h], which is not among the sources; bricking strips a title
    of all vassals. *)
Definition clearVassals (t : Title) : Title :=
  mkTitle (name t) (holder t) (liege t) (deJureLiege t) ∅ (provinces t)
          (inHRE t) (HREEmperor t) (generatedLiege t) (generatedVassals t).

(** Modelled from the spec: [Title::clearHolder] ([Title.h]); the title is
    left with no holder. *)
Definition clearHolder (t : Title) : Title :=
  mkTitle (name t) 0 (liege t) (deJureLiege t) (vassals t) (provinces t)
          (inHRE t) (HREEmperor t) (generatedLiege t) (generatedVassals t).

(** Modelled from the spec: [Title::clearLiege] ([Title.h]); the title is
    detached from any liege. *)
Definition clearLiege (t : Title) : Title :=
  mkTitle (name t) (holder t) "" (deJureLiege t) (vassals t) (provinces t)
          (inHRE t) (HREEmperor t) (generatedLiege t) (generatedVassals t).

(** Modelled from the spec: [Title::setInHRE] ([Title.h]); the title is
    flagged as a member of the historical empire. *)
Definition setInHRE (t : Title) : Title :=
  mkTitle (name t) (holder t) (liege t) (deJureLiege t) (vassals t)
          (provinces t) true (HREEmperor t) (generatedLiege t)
          (generatedVassals t).

(** Modelled from the spec: [Title::setHREEmperor] ([Title.h]); the title
    is flagged as the designated emperor. *)
Definition setHREEmperor (t : Title) : Title :=
  mkTitle (name t) (holder t) (liege t) (deJureLiege t) (vassals t)
          (provinces t) (inHRE t) true (generatedLiege t)
          (generatedVassals t).

(** Modelled from the spec: [Title::overrideLiege] ([Title.h]); the
    barony is reattached under its de-jure liege. *)
Definition overrideLiege (t : Title) : Title :=
  mkTitle (name t) (holder t) (deJureLiege t) (deJureLiege t) (vassals t)
          (provinces t) (inHRE t) (HREEmperor t) (generatedLiege t)
          (generatedVassals t).

(** Modelled from the spec: [Title::registerGeneratedLiege] ([Title.h]);
    a liberated vassal keeps a back-reference to its former liege. *)
Definition registerGeneratedLiege (l : string) (t : Title) : Title :=
  mkTitle (name t) (holder t) (liege t) (deJureLiege t) (vassals t)
          (provinces t) (inHRE t) (HREEmperor t) l (generatedVassals t).

(** Modelled from the spec: [Title::registerGeneratedVassal] ([Title.h]);
    the former liege records the vassal it lost. *)
Definition registerGeneratedVassal (v : string) (t : Title) : Title :=
  mkTitle (name t) (holder t) (liege t) (deJureLiege t) (vassals t)
          (provinces t) (inHRE t) (HREEmperor t) (generatedLiege t)
          ({[v]} ∪ generatedVassals t).

End TitleOps.

Import TitleOps.

(** The keys of a [std::map<int, V>] in iteration order. *)
Definition ids_in_order (s : gset Z) : list Z := merge_sort Z.le (elements s).

(** [tag.find(p) == 0] *)
Definition hasPrefix (p tag : string) : bool := String.prefix p tag.

(** ** Merging independent baronies *)

Definition mergeable (tag : string) (t : Title) : bool :=
  negb (holder t =? 0) && String.eqb (liege t) "" && hasPrefix "b_" tag
  && hasPrefix "c_" (deJureLiege t).

Definition mergeBaronyStep (acc : gmap string Title * nat) (tag : string)
    : gmap string Title * nat :=
  let '(ts, counter) := acc in
  match ts !! tag with
  | None => acc
  | Some t =>
      if holder t =? 0 then acc
      else if String.eqb (liege t) "" then
        if hasPrefix "b_" tag then
          if hasPrefix "c_" (deJureLiege t)
          then (alter overrideLiege tag ts, S counter)
          else acc
        else acc
      else acc
  end.

Definition mergeIndependentBaronies (ts : gmap string Title)
    : gmap string Title * list LogEntry :=
  let '(ts', counter) :=
    foldl mergeBaronyStep (ts, 0%nat) (tags_in_order (dom ts)) in
  (ts', [(Info, "<> " +:+ pretty counter +:+ " baronies reassigned.")]).

(** ** Shattering the Holy Roman Empire *)

Inductive I_AM_HRE := HRE_NONE | HRE_HRE | HRE_BYZANTIUM | HRE_ROME | HRE_CUSTOM.

(** The parts of [Configuration] and of [iAmHreMapper] that
    [shatterHRE] consults. *)
Record Configuration := mkConfiguration {
  getHRE : I_AM_HRE;
  customHRE : string
}.

Definition hreTitleOf (cfg : Configuration) : string :=
  match getHRE cfg with
  | HRE_HRE => "e_hre"
  | HRE_BYZANTIUM => "e_byzantium"
  | HRE_ROME => "e_roman_empire"
  | HRE_CUSTOM => customHRE cfg
  | HRE_NONE => "e_hre"
  end.

Definition vassalsOf (ts : gmap string Title) (tag : string) : gset string :=
  match ts !! tag with Some t => vassals t | None => ∅ end.

Definition holderOf (ts : gmap string Title) (tag : string) : Z :=
  match ts !! tag with Some t => holder t | None => 0 end.

Definition isProtectedKingdom (tag : string) : bool :=
  String.eqb tag "k_papal_state" || String.eqb tag "k_orthodox".

(** Bricking: [clearVassals(); clearHolder(); clearLiege();]. *)
Definition brick (tag : string) (ts : gmap string Title) : gmap string Title :=
  alter clearLiege tag (alter clearHolder tag (alter clearVassals tag ts)).

(** State of the first loop: the title table, the member map (its keys)
    and the log. *)
Definition collectMemberStep
    (acc : gmap string Title * gset string * list LogEntry) (vassal : string)
    : gmap string Title * gset string * list LogEntry :=
  let '(ts, hreMembers, log) := acc in
  if hasPrefix "d_" vassal || hasPrefix "c_" vassal then
    (ts, {[vassal]} ∪ hreMembers, log)
  else if hasPrefix "k_" vassal then
    if isProtectedKingdom vassal then (ts, {[vassal]} ∪ hreMembers, log)
    else (brick vassal ts, vassalsOf ts vassal ∪ hreMembers, log)
  else if negb (hasPrefix "b_" vassal) then
    (ts, hreMembers,
     log ++ [(Warning, "Unrecognized HRE vassal: " +:+ vassal)])
  else acc.

(** State of the second loop: the title table and [emperorSet].
    [hreHolder] is a reference into the empire's title, so it is read
    from the table at each turn. *)
Definition flagMemberStep (hreTitle : string)
    (acc : gmap string Title * bool) (member : string)
    : gmap string Title * bool :=
  let '(ts, emperorSet) := acc in
  match ts !! member with
  | None => acc
  | Some m =>
      let isEmperor :=
        negb emperorSet && (holder m =? holderOf ts hreTitle) in
      let ts1 := if isEmperor then alter setHREEmperor member ts else ts in
      (alter clearLiege member (alter setInHRE member ts1),
       emperorSet || isEmperor)
  end.

Definition collectMembers (ts : gmap string Title) (hreTitle : string)
    : gmap string Title * gset string * list LogEntry :=
  foldl collectMemberStep (ts, ∅, [])
        (tags_in_order (vassalsOf ts hreTitle)).

Definition shatterHRE (cfg : Configuration) (ts : gmap string Title)
    : gmap string Title * list LogEntry :=
  match getHRE cfg with
  | HRE_NONE =>
      (ts, [(Info, ">< HRE Mechanics and shattering overridden by configuration.")])
  | _ =>
      let hreTitle := hreTitleOf cfg in
      match ts !! hreTitle with
      | None =>
          (ts, [(Info, "><  HRE shattering cancelled, " +:+ hreTitle
                       +:+ " not found!")])
      | Some theHre =>
          if decide (vassals theHre = ∅) then
            (ts, [(Info, "><  HRE shattering cancelled, " +:+ hreTitle
                         +:+ " has no vassals!")])
          else
            let '(ts1, hreMembers, log) := collectMembers ts hreTitle in
            let '(ts2, _) :=
              foldl (flagMemberStep hreTitle) (ts1, false)
                    (tags_in_order hreMembers) in
            let ts3 := alter clearHolder hreTitle
                         (alter clearVassals hreTitle ts2) in
            (ts3, log ++ [(Info, "<> " +:+ pretty (size hreMembers)
                                  +:+ " HRE members released.")])
      end
  end.


(** The members [shatterHRE] collects, described from the title table
    it starts from: the direct vassals it keeps and the vassals of the
    kingdoms it bricks. *)
Definition keptMember (vassal : string) : bool :=
  hasPrefix "d_" vassal || hasPrefix "c_" vassal
  || (hasPrefix "k_" vassal && isProtectedKingdom vassal).

Definition brickedKingdom (vassal : string) : bool :=
  negb (hasPrefix "d_" vassal || hasPrefix "c_" vassal)
  && hasPrefix "k_" vassal && negb (isProtectedKingdom vassal).

Definition hreMembersOf (ts : gmap string Title) (hreTitle : string)
    : gset string :=
  filter (fun v => keptMember v = true) (vassalsOf ts hreTitle)
  ∪ ⋃ (vassalsOf ts <$>
         filter (fun v => brickedKingdom v = true)
                (elements (vassalsOf ts hreTitle))).

(** The member the second loop flags as emperor: the first, in the order
    of the member map, whose holder is the empire's holder. *)
Definition holdsLike (ts : gmap string Title) (hreTitle member : string)
    : bool :=
  match ts !! member with
  | Some m => holder m =? holderOf ts hreTitle
  | None => false
  end.

Definition designatedEmperor (ts : gmap string Title) (hreTitle : string)
    : option string :=
  head (filter (fun m => holdsLike ts hreTitle m = true)
               (tags_in_order (hreMembersOf ts hreTitle))).

(** Vassal maps and liege references agree, as [linkVassals] leaves
    them: every vassal of a title is in the table and names that title
    as its liege. *)
Definition linksConsistentb (ts : gmap string Title) : bool :=
  forallb (fun entry : string * Title =>
             forallb (fun v => match ts !! v with
                               | Some V => String.eqb (liege V) entry.1
                               | None => false
                               end)
                     (elements (vassals entry.2)))
          (map_to_list ts).


(** The effect of the pass on one title, composed of the effect of
    bricking, of flagging and of the final stripping of the empire. *)
Definition brickT : Title → Title := clearLiege ∘ clearHolder ∘ clearVassals.

Definition flagT (emperor : bool) : Title → Title :=
  clearLiege ∘ setInHRE ∘ (if emperor then setHREEmperor else id).

Definition finalT (ts : gmap string Title) (hre t : string) : Title → Title :=
  (if decide (t = hre) then clearHolder ∘ clearVassals else id)
  ∘ (if decide (t ∈ hreMembersOf ts hre)
     then flagT (bool_decide (designatedEmperor ts hre = Some t)) else id)
  ∘ (if decide (t ∈ vassalsOf ts hre ∧ brickedKingdom t = true)
     then brickT else id).

(** ** Sample title tables for the shattering pass *)

Module HRESamples.

Definition title (tag : string) (holderID : Z) (liegeTag : string)
    (vs : list string) : string * Title :=
  (tag, mkTitle tag holderID liegeTag "" (list_to_set vs) ∅ false false "" ∅).

Definition cfgHRE : Configuration := mkConfiguration HRE_HRE "".
Definition cfgNone : Configuration := mkConfiguration HRE_NONE "".

(** An empire with a protected kingdom, an ordinary kingdom, a duchy and
    a county below it; the emperor (character 1) also holds a duchy of
    his own and a duchy inside the ordinary kingdom. *)
Definition empire : gmap string Title :=
  list_to_map
    [ title "e_hre" 1 "" ["k_papal_state"; "k_bavaria"; "d_saxony"; "c_ulm"];
      title "k_papal_state" 2 "e_hre" ["d_latium"];
      title "d_latium" 3 "k_papal_state" [];
      title "k_bavaria" 4 "e_hre" ["d_bavaria"; "d_tyrol"];
      title "d_bavaria" 4 "k_bavaria" [];
      title "d_tyrol" 1 "k_bavaria" [];
      title "d_saxony" 1 "e_hre" [];
      title "c_ulm" 5 "e_hre" [] ].

(** An empire whose only vassal is held by somebody else. *)
Definition loneDuchy : gmap string Title :=
  list_to_map
    [ title "e_hre" 1 "" ["d_a"];
      title "d_a" 2 "e_hre" [] ].

End HRESamples.


(** ** The world *)

(** The members of [CK2::World] the passes below work on.  The
    independent-title map is kept as its set of keys; its values are the
    titles filed under those tags in [titles]. *)
Record World := mkWorld {
  titles : gmap string Title;
  independentTitles : gset string;
  characters : gmap Z Character
}.

(** ** Recognising independent titles *)

Definition potentialIndepStep (ts : gmap string Title) (acc : gset string)
    (tag : string) : gset string :=
  match ts !! tag with
  | None => acc
  | Some t =>
      if holder t =? 0 then acc
      else if String.eqb (liege t) "" then {[tag]} ∪ acc
      else acc
  end.

Definition potentialIndeps (ts : gmap string Title) : gset string :=
  foldl (potentialIndepStep ts) ∅ (tags_in_order (dom ts)).

Definition countyHolderStep (ts : gmap string Title) (acc : gset Z)
    (tag : string) : gset Z :=
  match ts !! tag with
  | None => acc
  | Some t =>
      if negb (holder t =? 0) && hasPrefix "c_" (name t)
      then {[holder t]} ∪ acc else acc
  end.

Definition countyHolders (ts : gmap string Title) : gset Z :=
  foldl (countyHolderStep ts) ∅ (tags_in_order (dom ts)).

Definition recognizeStep (ts : gmap string Title) (holders : gset Z)
    (acc : gset string * nat) (indep : string) : gset string * nat :=
  let '(indeps, counter) := acc in
  if decide (holderOf ts indep ∈ holders)
  then ({[indep]} ∪ indeps, S counter)
  else acc.

Definition filterIndependentTitles (w : World) : World * list LogEntry :=
  let ts := titles w in
  let '(indeps, counter) :=
    foldl (recognizeStep ts (countyHolders ts)) (independentTitles w, 0%nat)
          (tags_in_order (potentialIndeps ts)) in
  (mkWorld ts indeps (characters w),
   [(Info, "<> " +:+ pretty counter +:+ " independent titles recognized.")]).

(** ** Splitting off vassals *)

(** IEEE 754 binary64, as [double] computes when every operation is
    rounded to binary64 on its own (no fused multiply-add, no extended
    precision). *)
Module Double.
Definition double : Type := spec_float.
Definition prec : Z := 53.
Definition emax : Z := 1024.
(** Conversion of an integer ([size_t] or [int]). *)
Definition of_Z (n : Z) : double := binary_normalize prec emax n 0 false.
Definition div : double → double → double := SFdiv prec emax.
Definition mul : double → double → double := SFmul prec emax.
Definition add : double → double → double := SFadd prec emax.
Definition ltb : double → double → bool := SFltb.
(** The literal [0.1]: [0x1.999999999999ap-4]. *)
Definition one_tenth : double := S754_finite false 7205759403792794 (-56).
End Double.

(** [static_cast<double>(total) / relevantVassals + 0.1 * total] *)
Definition threshold (total relevantVassals : Z) : Double.double :=
  Double.add (Double.div (Double.of_Z total) (Double.of_Z relevantVassals))
             (Double.mul Double.one_tenth (Double.of_Z total)).

(** [claimed > threshold] *)
Definition exceedsThreshold (claimed total relevantVassals : Z) : bool :=
  Double.ltb (threshold total relevantVassals) (Double.of_Z claimed).

(** The count [floor (T/N + T/10)] of the boundary, in exact integer
    arithmetic, and the check that the binary64 test puts that count
    and its successor on opposite sides. *)
Definition boundaryCount (total relevantVassals : Z) : Z :=
  (total * (10 + relevantVassals)) / (10 * relevantVassals).

Definition boundaryHolds (total relevantVassals : Z) : bool :=
  negb (exceedsThreshold (boundaryCount total relevantVassals)
                         total relevantVassals)
  && exceedsThreshold (boundaryCount total relevantVassals + 1)
                      total relevantVassals.

Definition boundaryHoldsUpTo (maxTotal maxVassals : nat) : bool :=
  forallb (fun total =>
             forallb (fun n => boundaryHolds (Z.of_nat total) (Z.of_nat (S n)))
                     (seq 0 maxVassals))
          (seq 0 (S maxTotal)).

Definition relevantVassalPrefix (tag : string) : option string :=
  if hasPrefix "e_" tag then Some "k_"
  else if hasPrefix "k_" tag then Some "d_"
  else None.

Definition isUntouchable (tag : string) : bool :=
  String.eqb tag "k_papal_state" || String.eqb tag "e_outremer"
  || String.eqb tag "e_china_west_governor".

Definition isTribalOrNomadic (c : Character) : bool :=
  String.eqb (government c) "tribal_government"
  || String.eqb (government c) "nomadic_government".

Section SplitVassals.

(** [Title::coalesceProvinces] is not among the sources: the passes
    take it as given.  It returns the province map of a title of the
    table (its keys here). *)
Variable coalesceProvinces : gmap string Title → string → gset Z.

Definition claimSize (ts : gmap string Title) (tag : string) : Z :=
  Z.of_nat (size (coalesceProvinces ts tag)).

Definition countRelevantStep (ts : gmap string Title) (pre : string)
    (relevantVassals : Z) (vassal : string) : Z :=
  if negb (hasPrefix pre vassal) then relevantVassals
  else if claimSize ts vassal =? 0 then relevantVassals
  else relevantVassals + 1.

Definition liberateStep (ts : gmap string Title) (pre tag : string)
    (t : Title) (relevantVassals : Z) (newIndeps : gset string)
    (vassal : string) : gset string :=
  if negb (hasPrefix pre vassal) then newIndeps
  else if holderOf ts vassal =? holder t then newIndeps
  else if exceedsThreshold (claimSize ts vassal) (claimSize ts tag)
                           relevantVassals
  then {[vassal]} ∪ newIndeps
  else newIndeps.

(** One turn of the first loop.  [None] stands for the dereference of
    a pointer that is not there: an independent title that is not in
    the table, or whose holder is not in the character table. *)
Definition splitTitleStep (w : World) (acc : option (gset string))
    (tag : string) : option (gset string) :=
  match acc with
  | None => None
  | Some newIndeps =>
      if isUntouchable tag then Some newIndeps else
      match titles w !! tag with
      | None => None
      | Some t =>
          match characters w !! holder t with
          | None => None
          | Some h =>
              if isTribalOrNomadic h then Some newIndeps else
              match relevantVassalPrefix tag with
              | None => Some newIndeps
              | Some pre =>
                  let relevantVassals :=
                    foldl (countRelevantStep (titles w) pre) 0
                          (tags_in_order (vassals t)) in
                  if relevantVassals =? 0 then Some newIndeps
                  else Some (foldl (liberateStep (titles w) pre tag t
                                                 relevantVassals)
                                   newIndeps (tags_in_order (vassals t)))
              end
          end
      end
  end.

(** One turn of the second loop: the liege records the vassal, the
    vassal loses its liege, records where it came from and joins the
    independent titles.  [None]: the vassal has no liege to read. *)
Definition freeStep (acc : option World) (newIndep : string)
    : option World :=
  match acc with
  | None => None
  | Some w =>
      match titles w !! newIndep with
      | None => None
      | Some t =>
          if String.eqb (liege t) "" then None else
          let ts1 := alter (registerGeneratedVassal newIndep) (liege t)
                           (titles w) in
          let ts2 := alter (registerGeneratedLiege (liege t) ∘ clearLiege)
                           newIndep ts1 in
          Some (mkWorld ts2 ({[newIndep]} ∪ independentTitles w)
                        (characters w))
      end
  end.

Definition newIndepsOf (w : World) : option (gset string) :=
  foldl (splitTitleStep w) (Some ∅) (tags_in_order (independentTitles w)).

Definition splitVassals (w : World) : option (World * list LogEntry) :=
  match newIndepsOf w with
  | None => None
  | Some newIndeps =>
      match foldl freeStep (Some w) (tags_in_order newIndeps) with
      | None => None
      | Some w' =>
          Some (w', [(Info, "<> " +:+ pretty (size newIndeps)
                        +:+ " vassals liberated from immediate integration.")])
      end
  end.

End SplitVassals.

(** Modelled from the spec: [Title::coalesceProvinces] is not among the
    sources.  A title's territorial claim is the union of its own
    provinces with the claims of its vassals, down the vassal tree
    ([depth] bounds the descent). *)
Fixpoint coalesceDepth (depth : nat) (ts : gmap string Title) (tag : string)
    : gset Z :=
  match depth with
  | O => ∅
  | S d =>
      match ts !! tag with
      | None => ∅
      | Some t =>
          ⋃ (coalesceDepth d ts <$> elements (vassals t)) ∪ provinces t
      end
  end.

(** Modelled from the spec: [Title::coalesceProvinces], as above, with
    a depth that reaches below every title of the table. *)
Definition coalesceProvincesOf (ts : gmap string Title) (tag : string)
    : gset Z :=
  coalesceDepth (S (size ts)) ts tag.

(** ** Dropping provinceless titles *)

Definition isProvinceless (ts : gmap string Title) (tag : string) : bool :=
  match ts !! tag with
  | Some t => bool_decide (provinces t = ∅)
  | None => false
  end.

Definition filterProvincelessTitles (w : World) : World * list LogEntry :=
  let titlesForDisposal :=
    filter (fun tag => isProvinceless (titles w) tag = true)
           (independentTitles w) in
  let remaining := independentTitles w ∖ titlesForDisposal in
  (mkWorld (titles w) remaining (characters w),
   [(Info, "<> " +:+ pretty (size titlesForDisposal)
              +:+ " empty titles dropped, " +:+ pretty (size remaining)
              +:+ " remain.")]).

(** ** The province watchdog *)

Definition recordOwner (indep : string) (m : gmap Z (list string)) (p : Z)
    : gmap Z (list string) :=
  <[p := default [] (m !! p) ++ [indep]]> m.

Definition recordTitle (ts : gmap string Title) (m : gmap Z (list string))
    (indep : string) : gmap Z (list string) :=
  match ts !! indep with
  | None => m
  | Some t => foldl (recordOwner indep) m (ids_in_order (provinces t))
  end.

Definition provinceTitlesMap (w : World) : gmap Z (list string) :=
  foldl (recordTitle (titles w)) ∅ (tags_in_order (independentTitles w)).

Definition provinceWarning (p : Z) (owners : list string) : string :=
  foldl (fun warning owner => warning +:+ owner +:+ ",")
        ("Province ID: " +:+ pretty p +:+ " is owned by: ") owners.

(** State of the second loop: the log and [sanity]. *)
Definition explodeStep (acc : list LogEntry * bool)
    (entry : Z * list string) : list LogEntry * bool :=
  let '(log, sanity) := acc in
  if (1 <? length entry.2)%nat
  then (log ++ [(Warning, provinceWarning entry.1 entry.2)], false)
  else acc.

Definition sanityCheckifyProvinces (w : World) : World * list LogEntry :=
  let '(log, sanity) :=
    foldl explodeStep ([], true) (in_order (provinceTitlesMap w)) in
  (w, log ++
      (if sanity
       then [(Info, "<> Province sanity check passed, all provinces accounted for.")]
       else [(Warning, "!! Province sanity check failed! We have excess provinces!")])).


(** ** Sample title tables for the later passes *)

Module WorldSamples.

Definition titleOf (tag : string) (holderID : Z) (liegeTag deJure : string)
    (vs : list string) (ps : list Z) : string * Title :=
  (tag, mkTitle tag holderID liegeTag deJure (list_to_set vs)
                (list_to_set ps) false false "" ∅).

Definition ruler (id : Z) (gov : string) : Z * Character :=
  (id, mkCharacter id false 0 nullDate gov ∅ noChar).

(** Two independent baronies under de-jure counties: one held, one
    without holder. *)
Definition baronies : gmap string Title :=
  list_to_map
    [ titleOf "b_held" 7 "" "c_here" [] [];
      titleOf "b_vacant" 0 "" "c_there" [] [];
      titleOf "c_here" 8 "" "d_far" [] [1];
      titleOf "c_there" 9 "" "d_far" [] [2] ].

(** A kingdom whose holder keeps a small duchy for himself, next to a
    large duchy that has no holder. *)
Definition realm : World :=
  mkWorld
    (list_to_map
       [ titleOf "k_a" 1 "" "" ["d_b"; "d_c"] [];
         titleOf "d_b" 0 "k_a" "k_a" [] [1; 2; 3; 4; 5; 6; 7];
         titleOf "d_c" 1 "k_a" "k_a" ["c_x"] [8];
         titleOf "c_x" 1 "d_c" "d_c" [] [9; 10] ])
    ∅
    (list_to_map [ruler 1 "feudal_government"]).

(** Two independent counties that both list province 5. *)
Definition overlapping : World :=
  mkWorld
    (list_to_map
       [ titleOf "c_one" 1 "" "" [] [4; 5];
         titleOf "c_two" 2 "" "" [] [5; 6] ])
    {["c_one"; "c_two"]}
    (list_to_map [ruler 1 "feudal_government"; ruler 2 "feudal_government"]).

End WorldSamples.


(** [t] claims [p]: an independent title whose province map has [p]. *)
Definition claimsb (ts : gmap string Title) (p : Z) (t : string) : bool :=
  match ts !! t with
  | Some T => bool_decide (p ∈ provinces T)
  | None => false
  end.

Definition claims (w : World) (t : string) (p : Z) : Prop :=
  t ∈ independentTitles w
  ∧ ∃ T, titles w !! t = Some T ∧ p ∈ provinces T.

(** The owners the watchdog files under a province: the independent
    titles claiming it, in the order of the independent-title map. *)
Definition ownersOf (w : World) (p : Z) : list string :=
  filter (fun t => claimsb (titles w) p t = true)
         (tags_in_order (independentTitles w)).

Definition ownersIn (m : gmap Z (list string)) (p : Z) : list string :=
  default [] (m !! p).

Definition noEmptyEntry (m : gmap Z (list string)) : Prop :=
  ∀ p, m !! p ≠ Some [].

(** ** Recovery of missing religion and culture definitions *)

Module Recovery.

(** What [getReligion()] and [getCulture()] answer for a character. *)
Record Creed := mkCreed { religion : string; culture : string }.

(** An entry of [mods.getMods()]: name and path. *)
Definition Mod : Type := string * string.

Definition isInsane (c : Creed) : bool :=
  String.eqb (religion c) "" || String.eqb (culture c) "".

Section Loader.

(** The savegame parser, the dynasty table and the file system are not
    among the sources.  [State] is whatever the dynasty loader
    changes; the remaining variables are the operations the two
    functions call on it. *)
Variable State : Type.
Variable getCharacters : State → gmap Z Creed.
Variable getMods : Configuration → list Mod.
Variable doesFolderExist : string → bool.
Variable GetAllFilesInFolder : string → list string.
Variable underLoadDynasties : string → State → State.

Definition insanityCounter (s : State) : nat :=
  length (filter (fun c : Z * Creed => isInsane c.2 = true)
                 (in_order (getCharacters s))).

Definition dynastiesFolder (m : Mod) : string := m.2 +:+ "/common/dynasties/".

(** The body of the loop up to the sanity count: the state after the
    mod has been looked at. *)
Definition loadMod (s : State) (m : Mod) : State :=
  if doesFolderExist (dynastiesFolder m) then
    foldl (fun s file => underLoadDynasties (dynastiesFolder m +:+ file) s)
          s (GetAllFilesInFolder (dynastiesFolder m))
  else s.

(** The loop over the mods; the result carries [weAreSane]. *)
Fixpoint rummage (mods : list Mod) (s : State) (log : list LogEntry)
    : State * bool * list LogEntry :=
  match mods with
  | [] => (s, false, log)
  | m :: rest =>
      if doesFolderExist (dynastiesFolder m) then
        let s' := loadMod s m in
        let log' :=
          log ++ [(Info, "Found something interesting in " +:+ m.1)] in
        if (insanityCounter s' =? 0)%nat then
          (s', true,
           log' ++ [(Info, "<> All " +:+ pretty (size (getCharacters s'))
                            +:+ " characters have been sanified. Cancelling rummage.")])
        else
          rummage rest s'
            (log' ++ [(Warning, "! " +:+ pretty (insanityCounter s')
                                 +:+ " characters are still lacking definitions. Continuing with the rummage.")])
      else rummage rest s log
  end.

Definition didWhatWeCould : LogEntry := (Warning, "... We did what we could.").

Definition loadDynastiesFromMods (cfg : Configuration) (s : State)
    : State * list LogEntry :=
  let '(s', weAreSane, log) :=
    rummage (getMods cfg) s
      [(Info, "*** Intermezzo ***");
       (Info, "-> Locating mods in mod folder");
       (Info, "-> Rummaging through mods in search of definitions.")] in
  (s', log ++ (if weAreSane then [] else [didWhatWeCould])
           ++ [(Info, "*** Intermezzo End, back to scheduled run ***")]).

Definition verifyReligionsAndCultures (cfg : Configuration) (s : State)
    : State * list LogEntry :=
  let opening :=
    [(Info, "-- Verifyling All Characters Have Religion And Culture Loaded")] in
  if (insanityCounter s =? 0)%nat then
    (s, opening ++
        [(Info, "<> All " +:+ pretty (size (getCharacters s))
                 +:+ "characters are sane.")])
  else
    let '(s', log) := loadDynastiesFromMods cfg s in
    (s', opening ++
         [(Warning, "! " +:+ pretty (insanityCounter s)
                     +:+ " characters have lacking definitions! Attempting recovery.")]
         ++ log).

(** Every state the loop passed through before it looked at its last
    mod still had insane characters. *)
Definition insaneBefore (s : State) (tried : list Mod) : Prop :=
  ∀ pre x suf, tried = pre ++ x :: suf →
               insanityCounter (foldl loadMod s pre) ≠ 0%nat.

End Loader.

End Recovery.

(** ** Succession: living children and sample families *)

(** The holder has a living child of the given sex under identifier
    [i]. *)
Definition livingChildOf (wantFemale : bool) (holder : Character) (i : Z)
    : Prop :=
  ∃ q, children holder !! i = Some q ∧ isAlive (pointee q) = true
       ∧ female (pointee q) = wantFemale.

Definition livingSon : Character → Z → Prop := livingChildOf false.

(** A candidate of a scan: unset, or a living child of the vector of
    the sex the candidate stands for. *)
Definition candidateOf (sex : bool) (v : ChildVector) (r : CharRef) : Prop :=
  r = noChar
  ∨ ∃ c, c ∈ v ∧ r = Succession.toRef c ∧ isAlive (pointee c.2) = true
         ∧ female (pointee c.2) = sex.

Module SuccessionSamples.

(** A child that died on 3.4.1100. *)
Definition deadChild (addr id : Z) (isFemale : bool)
    : shared_ptr Character :=
  mkPtr addr (mkCharacter id isFemale 0 (mkDate 1100 4 3) "" ∅ noChar).

(** A holder whose only child, a son, is dead. *)
Definition bereavedFamily : Character :=
  Succession.parentOf [deadChild 100 10 false].


(** A holder with two living daughters 20 and 25 and a dead son. *)
Definition daughtersFamily : Character :=
  Succession.parentOf
    [ Succession.livingChild 100 20 true 0; deadChild 150 21 false;
      Succession.livingChild 200 25 true 0 ].

End SuccessionSamples.


(** One of the two candidates of a scan: the son for [false], the
    daughter for [true]. *)
Definition candidate (sex : bool) (cands : CharRef * CharRef) : CharRef :=
  if sex then cands.2 else cands.1.




(** [result] is the holder as a resolver may leave it: untouched, or
    with one of the holder's living children as heir. *)
Definition appointsLivingChild (holder result : Character) : Prop :=
  result = holder
  ∨ ∃ k p, children holder !! k = Some p ∧ isAlive (pointee p) = true
           ∧ result = setHeir (k, Some p) holder.

Module C6Samples.



End C6Samples.

(** ** The liberation threshold: the boundary and the machine's numbers *)


(** [relevantVassals] as the first inner loop of [splitVassals] leaves
    it for the title [t]. *)
Definition relevantCount
    (coalesceProvinces : gmap string Title → string → gset Z)
    (ts : gmap string Title) (pre : string) (t : Title) : Z :=
  foldl (countRelevantStep coalesceProvinces ts pre) 0
        (tags_in_order (vassals t)).


(** The threshold test on the binary64 numbers of the machine (the
    primitive floating-point numbers of the kernel), for counts that fit
    a 63-bit integer.  It is the test of [exceedsThreshold], operation
    by operation, and serves to evaluate it over a large range. *)
Module Binary64.

Definition one_tenth : PrimFloat.float :=
  Eval vm_compute in FloatOps.SF2Prim Double.one_tenth.

Definition threshold (total relevantVassals : PrimInt63.int)
    : PrimFloat.float :=
  PrimFloat.add
    (PrimFloat.div (PrimFloat.of_uint63 total)
                   (PrimFloat.of_uint63 relevantVassals))
    (PrimFloat.mul one_tenth (PrimFloat.of_uint63 total)).

Definition exceedsThreshold (claimed total relevantVassals : PrimInt63.int)
    : bool :=
  PrimFloat.ltb (threshold total relevantVassals)
                (PrimFloat.of_uint63 claimed).

Definition ten : PrimInt63.int := Eval vm_compute in Uint63.of_Z 10.
Definition one : PrimInt63.int := Eval vm_compute in Uint63.of_Z 1.

Definition boundaryCount (total relevantVassals : PrimInt63.int)
    : PrimInt63.int :=
  PrimInt63.div (PrimInt63.mul total (PrimInt63.add ten relevantVassals))
                (PrimInt63.mul ten relevantVassals).

(** The boundary test of a pair of counts: the threshold is computed
    once and compared with the count at the boundary and with the next
    one. *)
Definition boundaryHolds (total relevantVassals : PrimInt63.int) : bool :=
  let th := threshold total relevantVassals in
  let c := boundaryCount total relevantVassals in
  if PrimFloat.ltb th (PrimFloat.of_uint63 c) then false
  else PrimFloat.ltb th (PrimFloat.of_uint63 (PrimInt63.add c one)).



End Binary64.


Module ThresholdSamples.






End ThresholdSamples.

(** ** Title passes: what they recognise, drop and liberate *)

(** A title the sovereignty classifier recognises: it has a holder and
    no liege, and its holder also holds a title named [c_...]. *)
Definition sovereign (ts : gmap string Title) (tag : string) : Prop :=
  ∃ t, ts !! tag = Some t ∧ holder t ≠ 0 ∧ liege t = ""
       ∧ ∃ county c, ts !! county = Some c
                     ∧ hasPrefix "c_" (name c) = true
                     ∧ holder c = holder t.

(** The tags of the table the barony merge reattaches. *)
Definition mergeableIn (ts : gmap string Title) (tag : string) : bool :=
  match ts !! tag with Some t => mergeable tag t | None => false end.

Definition mergeableTags (ts : gmap string Title) : gset string :=
  filter (fun tag => mergeableIn ts tag = true) (dom ts).

(** [x] is a vassal that [splitVassals] marks while it looks at the
    independent title [tag]. *)
Definition liberatedFrom
    (coalesceProvinces : gmap string Title → string → gset Z)
    (w : World) (tag x : string) : Prop :=
  isUntouchable tag = false
  ∧ ∃ t h pre,
      titles w !! tag = Some t ∧ characters w !! holder t = Some h
      ∧ isTribalOrNomadic h = false
      ∧ relevantVassalPrefix tag = Some pre
      ∧ x ∈ vassals t ∧ hasPrefix pre x = true
      ∧ holderOf (titles w) x ≠ holder t
      ∧ relevantCount coalesceProvinces (titles w) pre t ≠ 0
      ∧ exceedsThreshold
          (claimSize coalesceProvinces (titles w) x)
          (claimSize coalesceProvinces (titles w) tag)
          (relevantCount coalesceProvinces (titles w) pre t) = true.

(** The two pointers [splitVassals] follows without a check: the
    holder of an independent title it does not skip, and the liege of a
    vassal it frees. *)
Definition holderMissing (w : World) (tag : string) : Prop :=
  isUntouchable tag = false
  ∧ (titles w !! tag = None
     ∨ ∃ t, titles w !! tag = Some t ∧ characters w !! holder t = None).

Definition liegeMissing (w : World) (x : string) : Prop :=
  titles w !! x = None ∨ ∃ t, titles w !! x = Some t ∧ liege t = "".

(** A direct vassal of the empire that [shatterHRE] reports: neither
    duchy, county, kingdom nor barony. *)
Definition unrecognizedHREVassal (vassal : string) : bool :=
  negb (hasPrefix "d_" vassal || hasPrefix "c_" vassal)
  && negb (hasPrefix "k_" vassal) && negb (hasPrefix "b_" vassal).

Module TitleSamples.

(** An empire with a duchy, a barony and a title of no known tier
    directly below it. *)
Definition oddEmpire : gmap string Title :=
  list_to_map
    [ HRESamples.title "e_hre" 1 "" ["d_a"; "b_chapel"; "x_odd"];
      HRESamples.title "d_a" 2 "e_hre" [];
      HRESamples.title "b_chapel" 3 "e_hre" [];
      HRESamples.title "x_odd" 4 "e_hre" [] ].

(** A kingdom with one large duchy held by another ruler and one small
    duchy of the king's own; the king also holds a county. *)
Definition splitRealm : World :=
  mkWorld
    (list_to_map
       [ WorldSamples.titleOf "k_a" 1 "" "" ["d_b"; "d_c"] [];
         WorldSamples.titleOf "d_b" 2 "k_a" "k_a" [] [1; 2; 3; 4; 5; 6; 7];
         WorldSamples.titleOf "d_c" 1 "k_a" "k_a" ["c_x"] [8];
         WorldSamples.titleOf "c_x" 1 "d_c" "d_c" [] [9; 10] ])
    {["k_a"]}
    (list_to_map [WorldSamples.ruler 1 "feudal_government";
                  WorldSamples.ruler 2 "feudal_government"]).

(** The same realm with one independent title that owns no province. *)
Definition withTitular : World :=
  mkWorld (titles splitRealm) {["k_a"; "d_b"; "c_x"]} (characters splitRealm).

End TitleSamples.

(** ** Recovery, in the words of the specification *)

Module RecoverySpec.

(** Some character has an empty religion or an empty culture. *)
Definition lacksDefinitions (chars : gmap Z Recovery.Creed) : Prop :=
  ∃ id c, chars !! id = Some c
          ∧ (Recovery.religion c = "" ∨ Recovery.culture c = "").

Section Sources.

Variable State : Type.
Variable doesFolderExist : string → bool.
Variable GetAllFilesInFolder : string → list string.
Variable underLoadDynasties : string → State → State.

(** The dynasty files a mod source contributes, each with its path, in
    the order of the folder listing; none when the mod has no
    [common/dynasties] folder. *)
Definition dynastyFiles (m : Recovery.Mod) : list string :=
  if doesFolderExist (m.2 +:+ "/common/dynasties/")
  then (fun file => (m.2 +:+ "/common/dynasties/") +:+ file)
         <$> GetAllFilesInFolder (m.2 +:+ "/common/dynasties/")
  else [].

(** The state once the given sources have been read one after the
    other: every dynasty file of every source under-loaded in turn. *)
Definition afterSources (s : State) (sources : list Recovery.Mod) : State :=
  foldl (fun s file => underLoadDynasties file s) s
        (concat (dynastyFiles <$> sources)).

End Sources.

End RecoverySpec.

(** A run of the recovery: the state is the character table; the mod
    [fix] has a dynasties folder with one file, which gives every
    character the religion and culture it lacks; the mod [bare] has no
    such folder and the mod [void] has one whose file changes nothing. *)
Module RecoverySamples.

Definition State : Type := gmap Z Recovery.Creed.

Definition getCharacters (s : State) : gmap Z Recovery.Creed := s.

(** Two mod directories: one that holds the mod [fix], one that does
    not. *)
Definition getMods (cfg : Configuration) : list Recovery.Mod :=
  [("bare", "mod/bare"); ("void", "mod/void"); ("fix", "mod/fix");
   ("late", "mod/late")].

Definition getModsWithoutFix (cfg : Configuration) : list Recovery.Mod :=
  [("bare", "mod/bare"); ("void", "mod/void")].

Definition doesFolderExist (path : string) : bool :=
  String.eqb path "mod/fix/common/dynasties/"
  || String.eqb path "mod/void/common/dynasties/"
  || String.eqb path "mod/late/common/dynasties/".

Definition GetAllFilesInFolder (path : string) : list string :=
  ["00_dynasties.txt"].

Definition complete (c : Recovery.Creed) : Recovery.Creed :=
  Recovery.mkCreed
    (if String.eqb (Recovery.religion c) "" then "catholic"
     else Recovery.religion c)
    (if String.eqb (Recovery.culture c) "" then "saxon"
     else Recovery.culture c).

Definition underLoadDynasties (file : string) (s : State) : State :=
  if String.eqb file "mod/fix/common/dynasties/00_dynasties.txt"
  then complete <$> s
  else if String.eqb file "mod/late/common/dynasties/00_dynasties.txt"
  then ∅
  else s.

(** Character 2 has no culture. *)
Definition troubled : State :=
  {[ 1 := Recovery.mkCreed "catholic" "frankish";
     2 := Recovery.mkCreed "orthodox" "" ]}.

End RecoverySamples.

(* ================================================================== *)
(** * Properties *)

Import Succession.

(** ** Orders and sorted vectors *)

Section Orders.
Context {A : Type}.

Lemma ptr_pair_le_iff (x y : Z * shared_ptr A) :
  ptr_pair_le x y ↔ x.1 < y.1 ∨ (x.1 = y.1 ∧ address x.2 <= address y.2).
Proof.
  unfold ptr_pair_le, ptr_pair_leb.
  rewrite orb_true_iff, andb_true_iff, Z.ltb_lt, Z.eqb_eq, Z.leb_le.
  reflexivity.
Qed.

#[global] Instance ptr_pair_le_total : Total (@ptr_pair_le A).
Proof. intros x y. rewrite !ptr_pair_le_iff. lia. Qed.

#[global] Instance ptr_pair_le_trans : Transitive (@ptr_pair_le A).
Proof. intros x y z. rewrite !ptr_pair_le_iff. lia. Qed.

Lemma sort_ascending_sorted (v : list (Z * shared_ptr A)) :
  StronglySorted ptr_pair_le (merge_sort ptr_pair_le v).
Proof. apply StronglySorted_merge_sort; apply _. Qed.

Lemma StronglySorted_reverse (R : relation A) (l : list A) :
  StronglySorted R l → StronglySorted (flip R) (reverse l).
Proof.
  induction 1 as [|x l Hl IH Hx]; [constructor|].
  rewrite reverse_cons. apply StronglySorted_app_2; [|exact IH|repeat constructor].
  intros x1 x2 Hx1 Hx2. apply list_elem_of_singleton in Hx2 as ->.
  rewrite elem_of_reverse in Hx1. unfold flip.
  rewrite Forall_forall in Hx. by apply Hx.
Qed.

Lemma strictly_sorted_keys (l : list (Z * shared_ptr A)) :
  StronglySorted ptr_pair_le l → NoDup (l.*1) →
  StronglySorted (fun x y => x.1 < y.1) l.
Proof.
  induction 1 as [|x l Hl IH Hx]; intros Hnd; [constructor|].
  rewrite fmap_cons in Hnd. apply NoDup_cons in Hnd as [Hnotin Hnd].
  constructor; [by apply IH|].
  rewrite Forall_forall in Hx |- *. intros y Hy.
  specialize (Hx y Hy). apply ptr_pair_le_iff in Hx.
  destruct Hx as [Hlt|[Heq _]]; [done|].
  exfalso. apply Hnotin. rewrite Heq. apply list_elem_of_fmap. eauto.
Qed.
End Orders.

Lemma in_order_Permutation {V} (m : gmap Z V) : in_order m ≡ₚ map_to_list m.
Proof. apply merge_sort_Permutation. Qed.

Lemma in_order_NoDup_keys {V} (m : gmap Z V) : NoDup ((in_order m).*1).
Proof. rewrite in_order_Permutation. apply NoDup_fst_map_to_list. Qed.

Lemma elem_of_in_order {V} (m : gmap Z V) k v :
  (k, v) ∈ in_order m ↔ m !! k = Some v.
Proof. rewrite in_order_Permutation. apply elem_of_map_to_list. Qed.

Lemma youngestFirst_descending holder :
  StronglySorted (fun x y => y.1 < x.1) (youngestFirst holder).
Proof.
  unfold youngestFirst, sort_descending.
  apply (StronglySorted_reverse (fun x y => x.1 < y.1)).
  apply strictly_sorted_keys; [apply sort_ascending_sorted|].
  rewrite merge_sort_Permutation. apply in_order_NoDup_keys.
Qed.

(** ** Succession *)

Section SuccessionFacts.

Lemma scan_steps_agree acc child :
  below child.1 acc.1 → below child.1 acc.2 →
  scanPrimogenitureStep acc child = scanUltimogenitureStep acc child.
Proof.
  destruct acc as [son daughter]. unfold below. simpl. intros Hs Hd.
  unfold scanPrimogenitureStep, scanUltimogenitureStep.
  assert (Hc : (child.1 =? child.1 - 1) = false) by (apply Z.eqb_neq; lia).
  destruct (isAlive (pointee child.2)); simpl; [|done].
  destruct (female (pointee child.2)); simpl;
    rewrite ?andb_false_r, ?andb_true_r; simpl.
  - destruct (Z.eqb_spec daughter.1 0) as [Hz|Hz]; simpl.
    + by rewrite Hc, andb_false_r.
    + assert (Hne : (daughter.1 =? child.1 - 1) = false)
        by (apply Z.eqb_neq; lia).
      by rewrite Hne, andb_false_r.
  - destruct (Z.eqb_spec son.1 0) as [Hz|Hz]; simpl.
    + by rewrite Hc, andb_false_r.
    + assert (Hne : (son.1 =? child.1 - 1) = false)
        by (apply Z.eqb_neq; lia).
      by rewrite Hne, andb_false_r.
Qed.

Lemma scanUltimogenitureStep_below acc child k :
  k < child.1 → below k acc.1 → below k acc.2 →
  below k (scanUltimogenitureStep acc child).1
  ∧ below k (scanUltimogenitureStep acc child).2.
Proof.
  destruct acc as [son daughter]. unfold below, scanUltimogenitureStep.
  simpl. intros Hk Hs Hd.
  destruct (isAlive (pointee child.2)); simpl; [|done].
  destruct (son.1 =? 0), (daughter.1 =? 0), (female (pointee child.2));
    simpl; auto.
Qed.

Lemma scans_agree_from v acc :
  StronglySorted (fun x y => y.1 < x.1) v →
  (∀ c, c ∈ v → below c.1 acc.1 ∧ below c.1 acc.2) →
  foldl scanPrimogenitureStep acc v = foldl scanUltimogenitureStep acc v.
Proof.
  intros Hsorted. revert acc.
  induction Hsorted as [|child v Hv IH Hchild]; intros acc Hacc; [done|].
  simpl. destruct (Hacc child) as [Hs Hd]; [left|].
  rewrite (scan_steps_agree _ _ Hs Hd). apply IH.
  intros c Hc. rewrite Forall_forall in Hchild.
  destruct (Hacc c) as [Hs' Hd']; [by right|].
  apply scanUltimogenitureStep_below; auto.
Qed.

Lemma scans_agree_youngestFirst holder :
  scanPrimogeniture (youngestFirst holder)
  = scanUltimogeniture (youngestFirst holder).
Proof.
  apply scans_agree_from; [apply youngestFirst_descending|].
  intros c _. split; by left.
Qed.

Lemma picks_agree genderLaw son daughter holder :
  ¬ (genderLaw = "true_cognatic" ∧ son.1 ≠ 0 ∧ daughter.1 ≠ 0) →
  pickUltimogeniture genderLaw (son, daughter) holder
  = pickPrimogeniture genderLaw (son, daughter) holder.
Proof.
  intros Hno. unfold pickUltimogeniture, pickPrimogeniture.
  destruct ((String.eqb genderLaw "agnatic" || String.eqb genderLaw "cognatic")
            && negb (son.1 =? 0)); [done|].
  destruct (String.eqb genderLaw "cognatic" && negb (daughter.1 =? 0));
    [done|].
  destruct (String.eqb_spec genderLaw "true_cognatic") as [Hg|Hg];
    simpl; [|done].
  destruct (Z.eqb_spec son.1 0) as [Hs|Hs],
           (Z.eqb_spec daughter.1 0) as [Hd|Hd]; simpl; try done.
  exfalso. by apply Hno.
Qed.




End SuccessionFacts.

(** Claim C7.  Ultimogeniture is primogeniture run on the children in
    descending identifier order: the two candidate scans agree on that
    order and so do the two gender-law choices, except under
    [true_cognatic] with both a son and a daughter candidate, where
    ultimogeniture always appoints the candidate with the lower
    identifier, adjacent identifiers included. *)
Theorem ultimogeniture_is_primogeniture_youngest_first
    (genderLaw : string) (holder : Character) (son daughter : CharRef) :
  scanUltimogeniture (youngestFirst holder) = (son, daughter) →
  scanPrimogeniture (youngestFirst holder) = (son, daughter)
  ∧ (¬ (genderLaw = "true_cognatic" ∧ son.1 ≠ 0 ∧ daughter.1 ≠ 0) →
       resolveUltimogeniture genderLaw holder
       = primogenitureOn (youngestFirst holder) genderLaw holder)
  ∧ (genderLaw = "true_cognatic" → son.1 ≠ 0 → daughter.1 ≠ 0 →
       heir (resolveUltimogeniture genderLaw holder)
       = if son.1 <? daughter.1 then son else daughter).
Proof.
  intros Hscan. split; [by rewrite scans_agree_youngestFirst|split].
  - intros Hno. unfold resolveUltimogeniture, primogenitureOn.
    rewrite scans_agree_youngestFirst, Hscan. by apply picks_agree.
  - intros -> Hs Hd. unfold resolveUltimogeniture. rewrite Hscan.
    unfold pickUltimogeniture. simpl.
    apply Z.eqb_neq in Hs, Hd. rewrite Hs, Hd. simpl.
    by destruct (son.1 <? daughter.1).
Qed.

Lemma ultimogeniture_is_primogeniture_youngest_first_witness :
  heir (resolveUltimogeniture "true_cognatic" twinsFamily)
  = (10, Some (livingChild 100 10 false 0)).
Proof.
  destruct (ultimogeniture_is_primogeniture_youngest_first "true_cognatic"
              twinsFamily (10, Some (livingChild 100 10 false 0))
              (11, Some (livingChild 200 11 true 0)))
    as (_ & _ & H); [vm_compute; reflexivity|].
  rewrite H; [reflexivity|reflexivity|simpl; lia|simpl; lia].
Defined.

(** On the same family primogeniture flips to the daughter, because the
    identifiers are adjacent. *)
Example primogeniture_flips_on_twins :
  heir (resolvePrimogeniture "true_cognatic" twinsFamily)
  = (11, Some (livingChild 200 11 true 0)).
Proof. vm_compute. reflexivity. Qed.

(** *** Turkish succession *)

Lemma firstLiving_sorted (v : ChildVector) x :
  StronglySorted ptr_pair_le v → x ∈ v → isAlive (pointee x.2) = true →
  ∃ y, y ∈ v ∧ firstLiving v = Some y.2
       ∧ isAlive (pointee y.2) = true ∧ y.1 <= x.1.
Proof.
  induction 1 as [|c v Hv IH Hc]; intros Hx Halive; [by apply elem_of_nil in Hx|].
  simpl. destruct (isAlive (pointee c.2)) eqn:Hca.
  - exists c. repeat split; [left|done|].
    apply elem_of_cons in Hx as [->|Hx]; [lia|].
    rewrite Forall_forall in Hc. specialize (Hc x Hx).
    apply ptr_pair_le_iff in Hc. lia.
  - apply elem_of_cons in Hx as [->|Hx]; [congruence|].
    destruct (IH Hx Halive) as (y & Hy & Hf & Ha & Hle).
    exists y. repeat split; [by right|done..].
Qed.

Lemma prestigeVector_keys holder :
  Forall (fun e => e.1 = to_int (lround (prestige (pointee e.2))))
         (sort_ascending (prestigeVector holder)).
Proof.
  unfold sort_ascending. rewrite merge_sort_Permutation.
  unfold prestigeVector. apply Forall_forall. intros e He.
  apply list_elem_of_fmap in He as (c & -> & _). reflexivity.
Qed.

(** Whenever the holder has a living child, [resolveTurkish] appoints a
    living child whose rounded prestige, as the [int] the vector stores,
    is the lowest among the living children. *)
Lemma resolveTurkish_appoints_lowest holder k q :
  children holder !! k = Some q → isAlive (pointee q) = true →
  ∃ p, heir (resolveTurkish holder) = (charID (pointee p), Some p)
       ∧ isAlive (pointee p) = true
       ∧ to_int (lround (prestige (pointee p)))
         <= to_int (lround (prestige (pointee q))).
Proof.
  intros Hq Halive.
  assert (Hin : (to_int (lround (prestige (pointee q))), q)
                ∈ sort_ascending (prestigeVector holder)).
  { unfold sort_ascending. rewrite merge_sort_Permutation.
    unfold prestigeVector. apply list_elem_of_fmap.
    exists (k, q). split; [done|]. by apply elem_of_in_order. }
  destruct (firstLiving_sorted _ _ (sort_ascending_sorted _) Hin Halive)
    as (y & Hy & Hf & Ha & Hle).
  exists y.2. unfold resolveTurkish, sort_ascending. rewrite Hf. simpl.
  repeat split; [done|].
  pose proof (prestigeVector_keys holder) as Hkeys.
  rewrite Forall_forall in Hkeys. rewrite <- (Hkeys y Hy). done.
Qed.

(** Claim C1, evaluated.  Of three living children with rounded prestige
    5, 20 and 9 the resolver appoints the child with prestige 5: the
    vector is sorted in ascending order and its first living entry
    wins. *)
Theorem resolveTurkish_5_20_9 :
  heir (resolveTurkish turkishFamily) = (2, Some (livingChild 100 2 false 5))
  ∧ lround (prestige (pointee (livingChild 100 2 false 5))) = 5
  ∧ children turkishFamily !! 3 = Some (livingChild 200 3 false 20)
  ∧ isAlive (pointee (livingChild 200 3 false 20)) = true
  ∧ lround (prestige (pointee (livingChild 200 3 false 20))) = 20.
Proof. repeat split; vm_compute; reflexivity. Qed.

(** ** Ordered traversals *)

Lemma tags_in_order_NoDup (s : gset string) : NoDup (tags_in_order s).
Proof.
  unfold tags_in_order. rewrite merge_sort_Permutation. apply NoDup_elements.
Qed.

Lemma elem_of_tags_in_order (s : gset string) x : x ∈ tags_in_order s ↔ x ∈ s.
Proof.
  unfold tags_in_order. rewrite merge_sort_Permutation. apply elem_of_elements.
Qed.

Lemma ids_in_order_NoDup (s : gset Z) : NoDup (ids_in_order s).
Proof.
  unfold ids_in_order. rewrite merge_sort_Permutation. apply NoDup_elements.
Qed.

Lemma elem_of_ids_in_order (s : gset Z) x : x ∈ ids_in_order s ↔ x ∈ s.
Proof.
  unfold ids_in_order. rewrite merge_sort_Permutation. apply elem_of_elements.
Qed.

Lemma hasPrefix_head a b p q s :
  a ≠ b → hasPrefix (String a p) s = true → hasPrefix (String b q) s = false.
Proof.
  intros Hab. unfold hasPrefix. destruct s as [|c s]; simpl; [done|].
  destruct (ascii_dec a c) as [->|]; [|done].
  intros _. destruct (ascii_dec b c) as [->|]; [congruence|done].
Qed.

(** ** Shattering the Holy Roman Empire *)

Section ShatterHRE.

Lemma lookup_brick v (ts : gmap string Title) t :
  brick v ts !! t = if decide (v = t) then brickT <$> ts !! t else ts !! t.
Proof.
  unfold brick. destruct (decide (v = t)) as [->|Hne].
  - rewrite !lookup_alter_eq. unfold brickT.
    by destruct (ts !! t).
  - by rewrite !lookup_alter_ne.
Qed.

Lemma holder_flagT e t : holder (flagT e t) = holder t.
Proof. by destruct e. Qed.

Lemma vassals_flagT e t : vassals (flagT e t) = vassals t.
Proof. by destruct e. Qed.

Lemma HREEmperor_flagT e t : HREEmperor (flagT e t) = HREEmperor t || e.
Proof. destruct e; simpl; by rewrite ?orb_true_r, ?orb_false_r. Qed.

(** The first loop, over a duplicate-free list of vassal tags. *)
Lemma collect_fold (ts : gmap string Title) (l : list string) :
  NoDup l →
  let r := foldl collectMemberStep (ts, ∅, []) l in
  (∀ t, t ∈ l → brickedKingdom t = true → r.1.1 !! t = brickT <$> ts !! t)
  ∧ (∀ t, ¬ (t ∈ l ∧ brickedKingdom t = true) → r.1.1 !! t = ts !! t)
  ∧ (∀ m, m ∈ r.1.2 ↔
          (m ∈ l ∧ keptMember m = true)
          ∨ ∃ k, k ∈ l ∧ brickedKingdom k = true ∧ m ∈ vassalsOf ts k).
Proof.
  induction l as [|v l IH] using rev_ind; intros Hnd r.
  { subst r. simpl. split; [|split].
    - intros t Ht. by apply elem_of_nil in Ht.
    - done.
    - intros m. split; [set_solver|].
      intros [[Hm _]|(k & Hk & _)]; by apply elem_of_nil in Hm || apply elem_of_nil in Hk. }
  apply NoDup_app in Hnd as (Hnd & Hfresh & _).
  assert (Hv : v ∉ l) by (intros Hin; apply (Hfresh v Hin); left).
  destruct (IH Hnd) as (IHb & IHu & IHm). clear IH.
  subst r. rewrite foldl_app. simpl.
  destruct (foldl collectMemberStep (ts, ∅, []) l) as [[ts1 ms1] lg1].
  simpl in *.
  assert (Hvv : vassalsOf ts1 v = vassalsOf ts v).
  { unfold vassalsOf. rewrite IHu; [done|]. intros [? _]. done. }
  unfold collectMemberStep, keptMember, brickedKingdom in *.
  destruct (hasPrefix "d_" v || hasPrefix "c_" v) eqn:Hdc; simpl.
  { split; [|split].
    - intros t Ht Hb. apply elem_of_app in Ht as [Ht|Ht]; [by apply IHb|].
      apply list_elem_of_singleton in Ht as ->. rewrite Hdc in Hb. done.
    - intros t Hno. apply IHu. intros [Ht Hb]. apply Hno. split; [|done].
      apply elem_of_app. by left.
    - intros m. rewrite elem_of_union, elem_of_singleton, IHm. split.
      + intros [->|[[Hm Hk]|(k & Hk & Hb & Hm)]].
        * left. split; [apply elem_of_app; right; by left|]. by rewrite Hdc.
        * left. split; [apply elem_of_app; by left|done].
        * right. exists k. split; [apply elem_of_app; by left|done].
      + intros [[Hm Hk]|(k & Hk & Hb & Hm)].
        * apply elem_of_app in Hm as [Hm|Hm]; [right; left; done|].
          apply list_elem_of_singleton in Hm. by left.
        * apply elem_of_app in Hk as [Hk|Hk]; [right; right; eauto|].
          apply list_elem_of_singleton in Hk as ->. rewrite Hdc in Hb. done. }
  destruct (hasPrefix "k_" v) eqn:Hk_; simpl.
  - destruct (isProtectedKingdom v) eqn:Hprot; simpl.
    + split; [|split].
      * intros t Ht Hb. apply elem_of_app in Ht as [Ht|Ht]; [by apply IHb|].
        apply list_elem_of_singleton in Ht as ->.
        rewrite Hdc, Hk_, Hprot in Hb. done.
      * intros t Hno. apply IHu. intros [Ht Hb]. apply Hno. split; [|done].
        apply elem_of_app. by left.
      * intros m. rewrite elem_of_union, elem_of_singleton, IHm. split.
        -- intros [->|[[Hm Hk]|(k & Hk & Hb & Hm)]].
           ++ left. split; [apply elem_of_app; right; by left|].
              by rewrite Hdc, Hk_, Hprot.
           ++ left. split; [apply elem_of_app; by left|done].
           ++ right. exists k. split; [apply elem_of_app; by left|done].
        -- intros [[Hm Hk]|(k & Hk & Hb & Hm)].
           ++ apply elem_of_app in Hm as [Hm|Hm]; [right; left; done|].
              apply list_elem_of_singleton in Hm. by left.
           ++ apply elem_of_app in Hk as [Hk|Hk]; [right; right; eauto|].
              apply list_elem_of_singleton in Hk as ->.
              rewrite Hdc, Hk_, Hprot in Hb. done.
    + split; [|split].
      * intros t Ht Hb. rewrite lookup_brick.
        apply elem_of_app in Ht as [Ht|Ht].
        -- destruct (decide (v = t)) as [->|]; [done|]. by apply IHb.
        -- apply list_elem_of_singleton in Ht as ->.
           rewrite decide_True by done. rewrite IHu; [done|].
           intros [? _]. done.
      * intros t Hno. rewrite lookup_brick.
        destruct (decide (v = t)) as [->|].
        -- exfalso. apply Hno. split; [apply elem_of_app; right; by left|].
           by rewrite Hdc, Hk_, Hprot.
        -- apply IHu. intros [Ht Hb]. apply Hno. split; [|done].
           apply elem_of_app. by left.
      * intros m. rewrite elem_of_union, Hvv, IHm. split.
        -- intros [Hm|[[Hm Hk]|(k & Hk & Hb & Hm)]].
           ++ right. exists v. split; [apply elem_of_app; right; by left|].
              by rewrite Hdc, Hk_, Hprot.
           ++ left. split; [apply elem_of_app; by left|done].
           ++ right. exists k. split; [apply elem_of_app; by left|done].
        -- intros [[Hm Hk]|(k & Hk & Hb & Hm)].
           ++ apply elem_of_app in Hm as [Hm|Hm]; [right; left; done|].
              apply list_elem_of_singleton in Hm as ->.
              rewrite Hdc, Hk_, Hprot in Hk. done.
           ++ apply elem_of_app in Hk as [Hk|Hk]; [right; right; eauto|].
              apply list_elem_of_singleton in Hk as ->. by left.
  - assert (Hsame : (if negb (hasPrefix "b_" v)
                     then (ts1, ms1, lg1 ++ [(Warning, "Unrecognized HRE vassal: " +:+ v)])
                     else (ts1, ms1, lg1)).1 = (ts1, ms1))
      by (by destruct (negb (hasPrefix "b_" v))).
    destruct (if negb (hasPrefix "b_" v) then _ else _) as [[ts2 ms2] lg2].
    simpl in Hsame. injection Hsame as -> ->. simpl.
    split; [|split].
    + intros t Ht Hb. apply elem_of_app in Ht as [Ht|Ht]; [by apply IHb|].
      apply list_elem_of_singleton in Ht as ->.
      rewrite Hdc, Hk_ in Hb. done.
    + intros t Hno. apply IHu. intros [Ht Hb]. apply Hno. split; [|done].
      apply elem_of_app. by left.
    + intros m. rewrite IHm. split.
      * intros [[Hm Hk]|(k & Hk & Hb & Hm)].
        -- left. split; [apply elem_of_app; by left|done].
        -- right. exists k. split; [apply elem_of_app; by left|done].
      * intros [[Hm Hk]|(k & Hk & Hb & Hm)].
        -- apply elem_of_app in Hm as [Hm|Hm]; [left; done|].
           apply list_elem_of_singleton in Hm as ->.
           rewrite Hdc, Hk_ in Hk. done.
        -- apply elem_of_app in Hk as [Hk|Hk]; [right; eauto|].
           apply list_elem_of_singleton in Hk as ->.
           rewrite Hdc, Hk_ in Hb. done.
Qed.

Lemma head_filter_snoc (P : string → Prop) `{∀ x, Decision (P x)} l v :
  head (filter P (l ++ [v]))
  = match head (filter P l) with
    | Some x => Some x
    | None => if decide (P v) then Some v else None
    end.
Proof.
  rewrite filter_app, head_app.
  destruct (head (filter P l)); [done|].
  rewrite filter_cons, filter_nil. by destruct (decide (P v)).
Qed.

(** The second loop, over a duplicate-free list of member tags. *)
Lemma flag_fold hre (ts1 : gmap string Title) (l : list string) :
  NoDup l →
  let r := foldl (flagMemberStep hre) (ts1, false) l in
  let e := head (filter (fun m => holdsLike ts1 hre m = true) l) in
  r.2 = bool_decide (is_Some e)
  ∧ ∀ t, r.1 !! t = if decide (t ∈ l)
                    then flagT (bool_decide (e = Some t)) <$> ts1 !! t
                    else ts1 !! t.
Proof.
  induction l as [|v l IH] using rev_ind; intros Hnd r e.
  { subst r e. simpl. split; [done|]. intros t.
    destruct (decide (t ∈ [])) as [Hin|]; [by apply elem_of_nil in Hin|done]. }
  apply NoDup_app in Hnd as (Hnd & Hfresh & _).
  assert (Hv : v ∉ l) by (intros Hin; apply (Hfresh v Hin); left).
  destruct (IH Hnd) as (IHe & IHt). clear IH.
  subst r e. rewrite foldl_app, head_filter_snoc. simpl.
  set (e0 := head (filter (fun m => holdsLike ts1 hre m = true) l)) in *.
  destruct (foldl (flagMemberStep hre) (ts1, false) l) as [ts2 set2].
  simpl in *.
  assert (He0 : ∀ x, e0 = Some x → x ∈ l).
  { intros x Hx. apply head_Some_elem_of in Hx.
    by apply list_elem_of_filter in Hx as [_ ?]. }
  assert (Hholder : holderOf ts2 hre = holderOf ts1 hre).
  { unfold holderOf. rewrite IHt. destruct (decide (hre ∈ l)); [|done].
    destruct (ts1 !! hre); simpl; [|done]. apply holder_flagT. }
  assert (Hlv : ts2 !! v = ts1 !! v) by (rewrite IHt; by rewrite decide_False).
  unfold flagMemberStep. rewrite Hlv.
  destruct (ts1 !! v) as [m|] eqn:Hm.
  - assert (Hlike : holdsLike ts1 hre v = (holder m =? holderOf ts1 hre))
      by (unfold holdsLike; by rewrite Hm).
    rewrite Hholder, <- Hlike. simpl. split.
    + rewrite IHe. destruct e0 as [x|]; simpl; [done|].
      destruct (decide (holdsLike ts1 hre v = true)) as [->|Hn]; [done|].
      by apply not_true_is_false in Hn as ->.
    + intros t. destruct (decide (t = v)) as [->|Hne].
      * rewrite decide_True by (apply elem_of_app; right; left).
        rewrite !lookup_alter_eq.
        assert (Hemp : (negb set2 && holdsLike ts1 hre v)
                       = bool_decide
                           (match e0 with
                            | Some x => Some x
                            | None => if decide (holdsLike ts1 hre v = true)
                                      then Some v else None
                            end = Some v)).
        { rewrite IHe. destruct e0 as [x|] eqn:Hx; simpl.
          - symmetry. apply bool_decide_eq_false. intros [= ->].
            apply Hv. by apply He0.
          - destruct (decide (holdsLike ts1 hre v = true)) as [->|Hn].
            + by rewrite bool_decide_eq_true_2.
            + apply not_true_is_false in Hn as ->. done. }
        rewrite <- Hemp.
        destruct (negb set2 && holdsLike ts1 hre v).
        -- rewrite lookup_alter_eq, Hlv, Hm. done.
        -- rewrite Hlv, Hm. done.
      * rewrite !lookup_alter_ne by done.
        assert (Hts : (if negb set2 && holdsLike ts1 hre v
                       then alter setHREEmperor v ts2 else ts2) !! t
                      = ts2 !! t).
        { destruct (negb set2 && holdsLike ts1 hre v); [|done].
          by rewrite lookup_alter_ne. }
        rewrite Hts, IHt.
        destruct (decide (t ∈ l)) as [Hin|Hnin].
        -- rewrite decide_True by (apply elem_of_app; by left).
           f_equal. f_equal. apply bool_decide_ext.
           destruct e0 as [x|]; [done|].
           destruct (decide (holdsLike ts1 hre v = true)); [|done].
           split; [done|]. intros [= ->]. done.
        -- rewrite decide_False; [done|].
           intros Hin. apply elem_of_app in Hin as [?|Hin]; [done|].
           by apply list_elem_of_singleton in Hin.
  - assert (Hlike : holdsLike ts1 hre v = false)
      by (unfold holdsLike; by rewrite Hm).
    rewrite decide_False by (rewrite Hlike; done). simpl. split.
    + rewrite IHe. by destruct e0.
    + intros t. rewrite IHt.
      destruct (decide (t ∈ l)) as [Hin|Hnin].
      * rewrite decide_True by (apply elem_of_app; by left).
        by destruct e0.
      * destruct (decide (t ∈ l ++ [v])) as [Hin|]; [|done].
        apply elem_of_app in Hin as [?|Hin]; [done|].
        apply list_elem_of_singleton in Hin as ->. by rewrite Hm.
Qed.

Lemma filter_ext_in (P Q : string → Prop)
    `{∀ x, Decision (P x)} `{∀ x, Decision (Q x)} (l : list string) :
  (∀ x, x ∈ l → P x ↔ Q x) → filter P l = filter Q l.
Proof.
  induction l as [|x l IH]; intros Hext; [done|].
  rewrite !filter_cons.
  rewrite IH by (intros y Hy; apply Hext; by right).
  destruct (decide (P x)) as [HP|HP], (decide (Q x)) as [HQ|HQ]; try done.
  - exfalso. apply HQ. apply Hext; [left|done].
  - exfalso. apply HP. apply Hext; [left|done].
Qed.

Lemma elem_of_hreMembersOf ts hre m :
  m ∈ hreMembersOf ts hre ↔
    (m ∈ vassalsOf ts hre ∧ keptMember m = true)
    ∨ ∃ k, k ∈ vassalsOf ts hre ∧ brickedKingdom k = true
           ∧ m ∈ vassalsOf ts k.
Proof.
  unfold hreMembersOf. rewrite elem_of_union, elem_of_filter, elem_of_union_list.
  split.
  - intros [[? ?]|(X & HX & Hm)]; [left; done|right].
    apply list_elem_of_fmap in HX as (k & -> & Hk).
    apply list_elem_of_filter in Hk as [Hb Hk].
    apply elem_of_elements in Hk. eauto.
  - intros [[? ?]|(k & Hk & Hb & Hm)]; [left; done|right].
    exists (vassalsOf ts k). split; [|done].
    apply list_elem_of_fmap. exists k. split; [done|].
    apply list_elem_of_filter. split; [done|]. by apply elem_of_elements.
Qed.

Lemma collectMembers_spec ts hre :
  (collectMembers ts hre).1.2 = hreMembersOf ts hre
  ∧ ∀ t, (collectMembers ts hre).1.1 !! t
         = if decide (t ∈ vassalsOf ts hre ∧ brickedKingdom t = true)
           then brickT <$> ts !! t else ts !! t.
Proof.
  unfold collectMembers.
  destruct (collect_fold ts (tags_in_order (vassalsOf ts hre))
              (tags_in_order_NoDup _)) as (Hb & Hu & Hm).
  split.
  - apply set_eq. intros m. rewrite Hm, elem_of_hreMembersOf.
    setoid_rewrite elem_of_tags_in_order. done.
  - intros t.
    destruct (decide (t ∈ vassalsOf ts hre ∧ brickedKingdom t = true))
      as [[Hin Hbk]|Hno].
    + apply Hb; [by apply elem_of_tags_in_order|done].
    + apply Hu. rewrite elem_of_tags_in_order. done.
Qed.

Lemma shatterHRE_unfold cfg ts theHre :
  getHRE cfg ≠ HRE_NONE →
  ts !! hreTitleOf cfg = Some theHre →
  vassals theHre ≠ ∅ →
  (shatterHRE cfg ts).1
  = alter clearHolder (hreTitleOf cfg)
      (alter clearVassals (hreTitleOf cfg)
         (foldl (flagMemberStep (hreTitleOf cfg))
                ((collectMembers ts (hreTitleOf cfg)).1.1, false)
                (tags_in_order (collectMembers ts (hreTitleOf cfg)).1.2)).1).
Proof.
  intros Hmode Hhre Hvs. unfold shatterHRE. rewrite Hhre.
  rewrite decide_False by done.
  destruct (collectMembers ts (hreTitleOf cfg)) as [[ts1 ms] lg]. simpl.
  destruct (foldl (flagMemberStep (hreTitleOf cfg)) (ts1, false)
                  (tags_in_order ms)) as [ts2 b].
  by destruct (getHRE cfg).
Qed.

Lemma linksConsistent_spec ts :
  linksConsistentb ts = true →
  ∀ t T v, ts !! t = Some T → v ∈ vassals T →
           ∃ V, ts !! v = Some V ∧ liege V = t.
Proof.
  unfold linksConsistentb. rewrite forallb_forall.
  intros Hall t T v HT Hv.
  specialize (Hall (t, T)). simpl in Hall.
  rewrite forallb_forall in Hall.
  assert (Hin : In (t, T) (map_to_list ts))
    by (apply list_elem_of_In; by apply elem_of_map_to_list).
  specialize (Hall Hin v).
  assert (Hinv : In v (elements (vassals T)))
    by (apply list_elem_of_In; by apply elem_of_elements).
  specialize (Hall Hinv).
  destruct (ts !! v) as [V|]; [|done].
  exists V. split; [done|]. by apply String.eqb_eq.
Qed.

Lemma shatterHRE_lookup cfg ts theHre t :
  getHRE cfg ≠ HRE_NONE →
  ts !! hreTitleOf cfg = Some theHre →
  vassals theHre ≠ ∅ →
  hasPrefix "e_" (hreTitleOf cfg) = true →
  linksConsistentb ts = true →
  (shatterHRE cfg ts).1 !! t = finalT ts (hreTitleOf cfg) t <$> ts !! t.
Proof.
  intros Hmode Hhre Hvs Hpre Hwf.
  pose proof (linksConsistent_spec ts Hwf) as Hlinks.
  rewrite (shatterHRE_unfold _ _ _ Hmode Hhre Hvs).
  set (hre := hreTitleOf cfg) in *.
  destruct (collectMembers_spec ts hre) as [Hms Hts1].
  rewrite Hms.
  set (ts1 := (collectMembers ts hre).1.1) in *.
  destruct (flag_fold hre ts1 (tags_in_order (hreMembersOf ts hre))
              (tags_in_order_NoDup _)) as [_ Hflag].
  set (ts2 := (foldl (flagMemberStep hre) (ts1, false)
                     (tags_in_order (hreMembersOf ts hre))).1) in *.
  (* the empire itself is not bricked *)
  assert (Hhre_nb : brickedKingdom hre = false).
  { unfold brickedKingdom.
    rewrite (hasPrefix_head "e" "k" "_" "_" hre) by done.
    by rewrite andb_false_r. }
  assert (Hh_hre : holderOf ts1 hre = holderOf ts hre).
  { unfold holderOf. rewrite Hts1. rewrite decide_False; [done|].
    intros [_ ?]. congruence. }
  (* no member is a bricked kingdom *)
  assert (Hmem_nb : ∀ m, m ∈ hreMembersOf ts hre →
                         ¬ (m ∈ vassalsOf ts hre ∧ brickedKingdom m = true)).
  { intros m Hm [Hdirect Hbk].
    apply elem_of_hreMembersOf in Hm as [[_ Hkept]|(k & Hk & Hkb & Hmk)].
    - unfold keptMember, brickedKingdom in *.
      destruct (hasPrefix "d_" m || hasPrefix "c_" m); [done|]. simpl in *.
      destruct (hasPrefix "k_" m); [|done]. simpl in *.
      destruct (isProtectedKingdom m); done.
    - unfold vassalsOf in Hdirect, Hmk, Hk. rewrite Hhre in Hdirect, Hk.
      destruct (ts !! k) as [K|] eqn:HK; [|by apply elem_of_empty in Hmk].
      destruct (Hlinks _ _ _ Hhre Hdirect) as (V & HV & HlV).
      destruct (Hlinks _ _ _ HK Hmk) as (V' & HV' & HlV').
      assert (k = hre) as -> by congruence.
      congruence. }
  assert (Hfilter :
    head (filter (fun m => holdsLike ts1 hre m = true)
                 (tags_in_order (hreMembersOf ts hre)))
    = designatedEmperor ts hre).
  { unfold designatedEmperor. f_equal. apply filter_ext_in.
    intros m Hm. apply elem_of_tags_in_order in Hm.
    unfold holdsLike. rewrite Hh_hre, Hts1.
    rewrite decide_False by (by apply Hmem_nb). done. }
  rewrite Hfilter in Hflag.
  assert (Hfinal : alter clearHolder hre (alter clearVassals hre ts2) !! t
    = (if decide (t = hre) then clearHolder ∘ clearVassals else id)
        <$> ts2 !! t).
  { destruct (decide (t = hre)) as [->|Hne].
    - rewrite !lookup_alter_eq. by destruct (ts2 !! hre).
    - rewrite !lookup_alter_ne by done. by destruct (ts2 !! t). }
  rewrite Hfinal, Hflag, Hts1. unfold finalT.
  destruct (decide (t = hre)), (decide (t ∈ hreMembersOf ts hre)),
    (decide (t ∈ vassalsOf ts hre ∧ brickedKingdom t = true));
    rewrite ?decide_True by (by apply elem_of_tags_in_order);
    rewrite ?decide_False by (by rewrite elem_of_tags_in_order);
    by destruct (ts !! t).
Qed.

End ShatterHRE.

(** Claim C2, as the code has it.  With shattering enabled, the
    designated empire in the table and holding vassals: protected
    kingdoms stay members with vassals and holder untouched; every other
    kingdom-tier vassal is bricked and its vassals are members; every
    member ends without liege and flagged as a member; the pass flags
    as emperor the first member, in the order of the member map, whose
    holder is the empire's holder, and no other title (so none when no
    member has that holder); the empire ends without vassals and
    holder. *)
Theorem shatterHRE_members (cfg : Configuration) (ts : gmap string Title)
    (theHre : Title) :
  getHRE cfg ≠ HRE_NONE →
  ts !! hreTitleOf cfg = Some theHre →
  vassals theHre ≠ ∅ →
  hasPrefix "e_" (hreTitleOf cfg) = true →
  linksConsistentb ts = true →
  let hre := hreTitleOf cfg in
  let ts' := (shatterHRE cfg ts).1 in
  let members := hreMembersOf ts hre in
  (collectMembers ts hre).1.2 = members
  ∧ (∀ v, v ∈ vassals theHre → isProtectedKingdom v = true →
          v ∈ members ∧ vassalsOf ts' v = vassalsOf ts v
          ∧ holderOf ts' v = holderOf ts v)
  ∧ (∀ k, k ∈ vassals theHre → hasPrefix "k_" k = true →
          isProtectedKingdom k = false →
          (∃ K, ts' !! k = Some K ∧ vassals K = ∅ ∧ holder K = 0
                ∧ liege K = "")
          ∧ vassalsOf ts k ⊆ members)
  ∧ (∀ m, m ∈ members →
          ∃ M, ts' !! m = Some M ∧ liege M = "" ∧ inHRE M = true)
  ∧ (∀ t T T', ts !! t = Some T → ts' !! t = Some T' →
          HREEmperor T'
          = HREEmperor T || bool_decide (designatedEmperor ts hre = Some t))
  ∧ (∃ E, ts' !! hre = Some E ∧ vassals E = ∅ ∧ holder E = 0).
Proof.
  intros Hmode Hhre Hvs Hpre Hwf hre ts' members.
  pose proof (linksConsistent_spec ts Hwf) as Hlinks.
  assert (Hlook : ∀ t, ts' !! t = finalT ts hre t <$> ts !! t)
    by (intros t; by apply (shatterHRE_lookup cfg ts theHre)).
  assert (Hdirect : vassalsOf ts hre = vassals theHre)
    by (unfold vassalsOf; fold hre in Hhre; by rewrite Hhre).
  assert (Hk_dc : ∀ k, hasPrefix "k_" k = true →
                       hasPrefix "d_" k || hasPrefix "c_" k = false).
  { intros k Hk.
    rewrite (hasPrefix_head "k" "d" "_" "_" k) by done.
    by rewrite (hasPrefix_head "k" "c" "_" "_" k). }
  assert (Hprot_k : ∀ v, isProtectedKingdom v = true → hasPrefix "k_" v = true).
  { intros v Hv. unfold isProtectedKingdom in Hv.
    apply orb_true_iff in Hv as [Hv|Hv]; apply String.eqb_eq in Hv as ->; done. }
  split; [apply collectMembers_spec|].
  split; [|split; [|split; [|split]]].
  - intros v Hv Hprot.
    assert (Hk : hasPrefix "k_" v = true) by auto.
    assert (Hmem : v ∈ members).
    { apply elem_of_hreMembersOf. left. rewrite Hdirect. split; [done|].
      unfold keptMember. by rewrite Hk, Hprot, orb_true_r. }
    assert (Hne : v ≠ hre).
    { intros ->. rewrite (hasPrefix_head "e" "k" "_" "_" hre) in Hk; done. }
    assert (Hnb : ¬ (v ∈ vassalsOf ts hre ∧ brickedKingdom v = true)).
    { intros [_ Hb]. unfold brickedKingdom in Hb. rewrite Hprot in Hb.
      by rewrite andb_false_r in Hb. }
    split; [done|]. unfold vassalsOf, holderOf. rewrite Hlook.
    unfold finalT. rewrite decide_False by done.
    rewrite decide_True by done. rewrite decide_False by done.
    destruct (ts !! v); simpl; [|done].
    by destruct (bool_decide (designatedEmperor ts hre = Some v)).
  - intros k Hk Hpre_k Hprot.
    assert (Hb : brickedKingdom k = true).
    { unfold brickedKingdom. by rewrite Hk_dc, Hpre_k, Hprot. }
    split.
    + destruct (Hlinks _ _ _ Hhre Hk) as (K & HK & _).
      exists (finalT ts hre k K). split; [by rewrite Hlook, HK|].
      unfold finalT. rewrite (decide_True (P := _ ∧ _)) by (by rewrite Hdirect).
      destruct (decide (k = hre)), (decide (k ∈ hreMembersOf ts hre));
        simpl; try done;
        destruct (bool_decide (designatedEmperor ts hre = Some k)); done.
    + intros m Hm. apply elem_of_hreMembersOf. right. exists k.
      by rewrite Hdirect.
  - intros m Hm.
    assert (∃ M, ts !! m = Some M) as [M HM].
    { apply elem_of_hreMembersOf in Hm as [[Hm _]|(k & Hk & _ & Hm)].
      - rewrite Hdirect in Hm.
        destruct (Hlinks _ _ _ Hhre Hm) as (V & HV & _). eauto.
      - unfold vassalsOf in Hm.
        destruct (ts !! k) as [K|] eqn:HK; [|by apply elem_of_empty in Hm].
        destruct (Hlinks _ _ _ HK Hm) as (V & HV & _). eauto. }
    exists (finalT ts hre m M). split; [by rewrite Hlook, HM|].
    unfold finalT. rewrite (decide_True (P := m ∈ _)) by done.
    destruct (decide (m = hre)),
      (decide (m ∈ vassalsOf ts hre ∧ brickedKingdom m = true));
      simpl; try done;
      destruct (bool_decide (designatedEmperor ts hre = Some m)); done.
  - intros t T T' HT HT'. rewrite Hlook, HT in HT'. injection HT' as <-.
    unfold finalT.
    destruct (decide (t ∈ hreMembersOf ts hre)) as [Hin|Hnin].
    + destruct (decide (t = hre)),
        (decide (t ∈ vassalsOf ts hre ∧ brickedKingdom t = true));
        simpl; destruct (bool_decide (designatedEmperor ts hre = Some t));
        simpl; by rewrite ?orb_true_r, ?orb_false_r.
    + assert (Hno : designatedEmperor ts hre ≠ Some t).
      { intros He. apply Hnin. unfold designatedEmperor in He.
        apply head_Some_elem_of in He.
        apply list_elem_of_filter in He as [_ He].
        by apply elem_of_tags_in_order in He. }
      rewrite bool_decide_eq_false_2 by done. rewrite orb_false_r.
      destruct (decide (t = hre)),
        (decide (t ∈ vassalsOf ts hre ∧ brickedKingdom t = true)); done.
  - exists (finalT ts hre hre theHre). split; [by rewrite Hlook; fold hre in Hhre; rewrite Hhre|].
    unfold finalT. rewrite decide_True by done.
    destruct (decide (hre ∈ hreMembersOf ts hre)),
      (decide (hre ∈ vassalsOf ts hre ∧ brickedKingdom hre = true));
      simpl; try done;
      destruct (bool_decide (designatedEmperor ts hre = Some hre)); done.
Qed.

Import HRESamples.

(** Decidable closed facts are settled by evaluation. *)
Ltac by_evaluation := apply (bool_decide_unpack _); vm_compute; exact I.

Lemma shatterHRE_members_witness :
  let ts' := (shatterHRE cfgHRE empire).1 in
  vassalsOf ts' "k_papal_state" = vassalsOf empire "k_papal_state"
  ∧ (∃ K, ts' !! "k_bavaria" = Some K ∧ vassals K = ∅ ∧ holder K = 0
          ∧ liege K = "")
  ∧ "d_tyrol" ∈ hreMembersOf empire "e_hre"
  ∧ designatedEmperor empire "e_hre" = Some "d_saxony".
Proof.
  assert (Hhre : empire !! hreTitleOf cfgHRE
                 = Some (title "e_hre" 1 ""
                           ["k_papal_state"; "k_bavaria"; "d_saxony"; "c_ulm"]).2)
    by (vm_compute; reflexivity).
  assert (H1 : getHRE cfgHRE ≠ HRE_NONE) by discriminate.
  assert (H3 : vassals (title "e_hre" 1 ""
                 ["k_papal_state"; "k_bavaria"; "d_saxony"; "c_ulm"]).2 ≠ ∅).
  { intros Heq.
    apply (f_equal (fun s : gset string => bool_decide ("c_ulm" ∈ s))) in Heq.
    vm_compute in Heq. discriminate. }
  assert (H4 : hasPrefix "e_" (hreTitleOf cfgHRE) = true) by reflexivity.
  assert (H5 : linksConsistentb empire = true) by (vm_compute; reflexivity).
  pose proof (shatterHRE_members cfgHRE empire _ H1 Hhre H3 H4 H5) as H.
  cbv zeta in H. destruct H as (_ & Hprot & Hbrick & _ & _ & _).
  destruct (Hprot "k_papal_state") as (_ & Hvs & _);
    [by_evaluation|reflexivity|].
  destruct (Hbrick "k_bavaria") as (HK & Hsub);
    [by_evaluation|reflexivity|reflexivity|].
  split; [exact Hvs|split; [exact HK|split]].
  - apply Hsub. by_evaluation.
  - vm_compute. reflexivity.
Defined.

(** Claim C2 as stated fails where it says that exactly one member is
    flagged as emperor: here shattering runs, the only member is held by
    another character, and no title ends up flagged. *)
Lemma shatterHRE_no_emperor :
  getHRE cfgHRE ≠ HRE_NONE
  ∧ vassalsOf loneDuchy (hreTitleOf cfgHRE) = {["d_a"]}
  ∧ (collectMembers loneDuchy (hreTitleOf cfgHRE)).1.2 = {["d_a"]}
  ∧ map_Forall (fun _ T => HREEmperor T = false) (shatterHRE cfgHRE loneDuchy).1
  ∧ ¬ (∃ m T, m ∈ (collectMembers loneDuchy (hreTitleOf cfgHRE)).1.2
              ∧ (shatterHRE cfgHRE loneDuchy).1 !! m = Some T
              ∧ HREEmperor T = true).
Proof.
  assert (Hall : map_Forall (fun _ T => HREEmperor T = false)
                            (shatterHRE cfgHRE loneDuchy).1)
    by by_evaluation.
  split; [discriminate|].
  split; [vm_compute; reflexivity|].
  split; [vm_compute; reflexivity|].
  split; [exact Hall|].
  intros (m & T & _ & HT & Hflag).
  specialize (Hall m T HT). simpl in Hall. congruence.
Qed.

(** Claim C10.  When shattering is disabled, or the designated title is
    not in the table, or it has no vassals, [shatterHRE] leaves the
    title table as it found it and only logs one informational line. *)
Theorem shatterHRE_cancelled (cfg : Configuration) (ts : gmap string Title) :
  getHRE cfg = HRE_NONE
  ∨ ts !! hreTitleOf cfg = None
  ∨ (∃ theHre, ts !! hreTitleOf cfg = Some theHre ∧ vassals theHre = ∅) →
  (shatterHRE cfg ts).1 = ts
  ∧ ∃ msg, (shatterHRE cfg ts).2 = [(Info, msg)].
Proof.
  unfold shatterHRE.
  intros [Hnone|[Hmissing|(theHre & Hhre & Hempty)]].
  - rewrite Hnone. eauto.
  - rewrite Hmissing. destruct (getHRE cfg); eauto.
  - rewrite Hhre. rewrite decide_True by done. destruct (getHRE cfg); eauto.
Qed.

Lemma shatterHRE_cancelled_witness :
  (shatterHRE cfgNone empire).1 = empire
  ∧ (shatterHRE cfgHRE (delete "e_hre" empire)).1 = delete "e_hre" empire.
Proof.
  split.
  - apply (shatterHRE_cancelled cfgNone empire). left. reflexivity.
  - apply (shatterHRE_cancelled cfgHRE (delete "e_hre" empire)).
    right. left. vm_compute. reflexivity.
Defined.

(** ** Merging independent baronies *)

Lemma mergeBarony_fold (ts : gmap string Title) (l : list string) :
  NoDup l →
  ∀ tag, (foldl mergeBaronyStep (ts, 0%nat) l).1 !! tag
         = if decide (tag ∈ l)
           then (fun t => if mergeable tag t then overrideLiege t else t)
                  <$> ts !! tag
           else ts !! tag.
Proof.
  induction l as [|v l IH] using rev_ind; intros Hnd tag.
  { simpl. destruct (decide (tag ∈ [])) as [Hin|]; [by apply elem_of_nil in Hin|done]. }
  apply NoDup_app in Hnd as (Hnd & Hfresh & _).
  assert (Hv : v ∉ l) by (intros Hin; apply (Hfresh v Hin); left).
  specialize (IH Hnd). rewrite foldl_app. cbn [foldl].
  destruct (foldl mergeBaronyStep (ts, 0%nat) l) as [ts1 n]. simpl in IH.
  assert (Hlv : ts1 !! v = ts !! v) by (rewrite IH; by rewrite decide_False).
  assert (Hstep : (mergeBaronyStep (ts1, n) v).1
                  = if match ts !! v with Some t => mergeable v t | None => false end
                    then alter overrideLiege v ts1 else ts1).
  { unfold mergeBaronyStep, mergeable. rewrite Hlv.
    destruct (ts !! v) as [t|]; [|done].
    destruct (holder t =? 0); simpl; [done|].
    destruct (String.eqb (liege t) ""); simpl; [|done].
    destruct (hasPrefix "b_" v); simpl; [|done].
    by destruct (hasPrefix "c_" (deJureLiege t)). }
  rewrite Hstep. destruct (decide (tag = v)) as [->|Hne].
  - rewrite decide_True by (apply elem_of_app; right; left).
    destruct (ts !! v) as [t|] eqn:Ht; simpl.
    + destruct (mergeable v t).
      * by rewrite lookup_alter_eq, Hlv.
      * by rewrite Hlv.
    + by rewrite Hlv.
  - assert (Hsame : (if match ts !! v with
                        | Some t => mergeable v t
                        | None => false
                        end then alter overrideLiege v ts1 else ts1) !! tag
                    = ts1 !! tag).
    { destruct (match ts !! v with Some t => mergeable v t | None => false end);
        [by rewrite lookup_alter_ne|done]. }
    rewrite Hsame, IH.
    destruct (decide (tag ∈ l)) as [Hin|Hnin].
    + by rewrite decide_True by (apply elem_of_app; by left).
    + rewrite decide_False; [done|].
      intros Hin. apply elem_of_app in Hin as [?|Hin]; [done|].
      by apply list_elem_of_singleton in Hin.
Qed.

(** Claim C8, as the code has it.  The pass overrides the liege of
    exactly the titles that have a holder, have no liege, carry a [b_]
    tag and have a de-jure liege with a [c_] tag; every other title is
    left as it was. *)
Theorem mergeIndependentBaronies_lookup (ts : gmap string Title) (tag : string) :
  (mergeIndependentBaronies ts).1 !! tag
  = (fun t => if mergeable tag t then overrideLiege t else t) <$> ts !! tag.
Proof.
  unfold mergeIndependentBaronies.
  pose proof (mergeBarony_fold ts (tags_in_order (dom ts))
                (tags_in_order_NoDup _) tag) as H.
  destruct (foldl mergeBaronyStep (ts, 0%nat) (tags_in_order (dom ts)))
    as [ts' n].
  simpl in *. rewrite H.
  destruct (decide (tag ∈ tags_in_order (dom ts))) as [|Hnin]; [done|].
  rewrite elem_of_tags_in_order in Hnin. apply not_elem_of_dom in Hnin.
  by rewrite Hnin.
Qed.

Import WorldSamples.

(** Claim C8 as stated fails for a barony without holder: it has no
    liege, a [b_] tag and a de-jure county, and keeps its empty liege. *)
Lemma mergeIndependentBaronies_skips_vacant :
  ∃ t, baronies !! "b_vacant" = Some t
       ∧ liege t = "" ∧ hasPrefix "b_" "b_vacant" = true
       ∧ hasPrefix "c_" (deJureLiege t) = true
       ∧ (mergeIndependentBaronies baronies).1 !! "b_vacant" = Some t
       ∧ liege (overrideLiege t) ≠ liege t.
Proof.
  eexists. split; [vm_compute; reflexivity|].
  repeat split; try (vm_compute; reflexivity). discriminate.
Qed.

Example mergeIndependentBaronies_reattaches_held :
  liege <$> (mergeIndependentBaronies baronies).1 !! "b_held" = Some "c_here".
Proof. vm_compute. reflexivity. Qed.

(** ** Recognising independent titles *)

Lemma potentialIndepStep_spec ts acc v tag :
  tag ∈ potentialIndepStep ts acc v ↔
    tag ∈ acc
    ∨ (tag = v ∧ ∃ t, ts !! tag = Some t ∧ holder t ≠ 0 ∧ liege t = "").
Proof.
  unfold potentialIndepStep.
  destruct (ts !! v) as [t|] eqn:Ht; [|naive_solver].
  destruct (Z.eqb_spec (holder t) 0) as [Hh|Hh]; [naive_solver|].
  destruct (String.eqb_spec (liege t) "") as [Hl|Hl]; [|naive_solver].
  rewrite elem_of_union, elem_of_singleton. naive_solver.
Qed.

Lemma potentialIndeps_fold ts l acc tag :
  tag ∈ foldl (potentialIndepStep ts) acc l ↔
    tag ∈ acc
    ∨ (tag ∈ l ∧ ∃ t, ts !! tag = Some t ∧ holder t ≠ 0 ∧ liege t = "").
Proof.
  revert acc. induction l as [|v l IH]; intros acc; simpl.
  { rewrite elem_of_nil. naive_solver. }
  rewrite IH, potentialIndepStep_spec, elem_of_cons. naive_solver.
Qed.

Lemma elem_of_potentialIndeps ts tag :
  tag ∈ potentialIndeps ts ↔
    ∃ t, ts !! tag = Some t ∧ holder t ≠ 0 ∧ liege t = "".
Proof.
  unfold potentialIndeps. rewrite potentialIndeps_fold. split.
  - intros [Hin|[_ ?]]; [by apply elem_of_empty in Hin|done].
  - intros (t & Ht & ?). right. split; [|eauto].
    apply elem_of_tags_in_order, elem_of_dom. eauto.
Qed.

Lemma countyHolderStep_spec ts acc v h :
  h ∈ countyHolderStep ts acc v ↔
    h ∈ acc
    ∨ ∃ t, ts !! v = Some t ∧ holder t = h ∧ h ≠ 0
           ∧ hasPrefix "c_" (name t) = true.
Proof.
  unfold countyHolderStep.
  destruct (ts !! v) as [t|] eqn:Ht; [|naive_solver].
  destruct (Z.eqb_spec (holder t) 0) as [Hh|Hh]; simpl; [naive_solver|].
  destruct (hasPrefix "c_" (name t)) eqn:Hp.
  - rewrite elem_of_union, elem_of_singleton. naive_solver.
  - split; [by left|].
    intros [?|(t0 & [= <-] & _ & _ & Hp')]; [done|congruence].
Qed.

Lemma countyHolders_fold ts l acc h :
  h ∈ foldl (countyHolderStep ts) acc l ↔
    h ∈ acc
    ∨ ∃ tag t, tag ∈ l ∧ ts !! tag = Some t ∧ holder t = h ∧ h ≠ 0
               ∧ hasPrefix "c_" (name t) = true.
Proof.
  revert acc. induction l as [|v l IH]; intros acc; simpl.
  { setoid_rewrite elem_of_nil. naive_solver. }
  rewrite IH, countyHolderStep_spec. setoid_rewrite elem_of_cons.
  naive_solver.
Qed.

Lemma recognize_fold ts holders l acc n tag :
  tag ∈ (foldl (recognizeStep ts holders) (acc, n) l).1 ↔
    tag ∈ acc ∨ (tag ∈ l ∧ holderOf ts tag ∈ holders).
Proof.
  revert acc n. induction l as [|v l IH]; intros acc n; simpl.
  { rewrite elem_of_nil. naive_solver. }
  destruct (decide (holderOf ts v ∈ holders)) as [Hh|Hh];
    rewrite IH, ?elem_of_union, ?elem_of_singleton, elem_of_cons;
    naive_solver.
Qed.

(** The sovereignty classifier only adds titles that have a holder, have
    no liege, and whose holder holds some title named [c_...]. *)
Lemma filterIndependentTitles_adds (w : World) (tag : string) :
  tag ∈ independentTitles (filterIndependentTitles w).1 ↔
    tag ∈ independentTitles w
    ∨ ∃ t, titles w !! tag = Some t ∧ holder t ≠ 0 ∧ liege t = ""
           ∧ ∃ county c, titles w !! county = Some c
                         ∧ hasPrefix "c_" (name c) = true
                         ∧ holder c = holder t.
Proof.
  unfold filterIndependentTitles.
  pose proof (recognize_fold (titles w) (countyHolders (titles w))
                (tags_in_order (potentialIndeps (titles w)))
                (independentTitles w) 0%nat tag) as H.
  destruct (foldl _ _ _) as [indeps counter]. simpl in *. rewrite H.
  rewrite elem_of_tags_in_order, elem_of_potentialIndeps.
  unfold countyHolders. rewrite countyHolders_fold. unfold holderOf.
  split.
  - intros [?|[(t & Ht & Hh & Hl) Hc]]; [by left|right].
    rewrite Ht in Hc. exists t. repeat split; try done.
    destruct Hc as [Hc|(county & c & _ & Hc & Hhc & _ & Hp)];
      [by apply elem_of_empty in Hc|eauto].
  - intros [?|(t & Ht & Hh & Hl & county & c & Hc & Hp & Hhc)]; [by left|right].
    split; [eauto|]. rewrite Ht. right. exists county, c.
    repeat split; try done.
    apply elem_of_tags_in_order, elem_of_dom. eauto.
Qed.

(** ** Splitting off vassals *)

Section SplitVassalsFacts.

Context (coalesceProvinces : gmap string Title → string → gset Z).


Lemma liberateStep_spec ts pre tag t n (acc : gset string) v x :
  x ∈ liberateStep coalesceProvinces ts pre tag t n acc v ↔
    x ∈ acc
    ∨ (x = v ∧ hasPrefix pre x = true ∧ holderOf ts x ≠ holder t
       ∧ exceedsThreshold (claimSize coalesceProvinces ts x)
                          (claimSize coalesceProvinces ts tag) n = true).
Proof.
  unfold liberateStep.
  destruct (hasPrefix pre v) eqn:Hp; cbn [negb].
  - destruct (Z.eqb_spec (holderOf ts v) (holder t)) as [Hh|Hh].
    + split; [by left|]. intros [?|(-> & _ & Hne & _)]; [done|].
      by destruct Hne.
    + destruct (exceedsThreshold _ _ n) eqn:He.
      * rewrite elem_of_union, elem_of_singleton. split.
        -- intros [->|?]; [right|by left]. done.
        -- intros [?|(-> & _)]; [by right|by left].
      * split; [by left|]. intros [?|(-> & _ & _ & He')]; [done|].
        congruence.
  - split; [by left|]. intros [?|(-> & Hp' & _)]; [done|]. congruence.
Qed.

(** The second loop over the vassals marks for liberation exactly those
    with the relevant prefix, a holder other than the liege's, and a
    claim that exceeds the threshold. *)
Lemma liberate_fold ts pre tag t n (l : list string) (acc : gset string) x :
  x ∈ foldl (liberateStep coalesceProvinces ts pre tag t n) acc l ↔
    x ∈ acc
    ∨ (x ∈ l ∧ hasPrefix pre x = true ∧ holderOf ts x ≠ holder t
       ∧ exceedsThreshold (claimSize coalesceProvinces ts x)
                          (claimSize coalesceProvinces ts tag) n = true).
Proof.
  revert acc. induction l as [|v l IH]; intros acc; cbn [foldl].
  { rewrite elem_of_nil. split; [by left|]. by intros [?|[[] _]]. }
  rewrite IH, liberateStep_spec, elem_of_cons. split.
  - intros [[?|(-> & ?)]|(? & ?)]; [by left|right..].
    + split; [by left|done].
    + split; [by right|done].
  - intros [?|([->|?] & ?)]; [left; by left|left; by right|right; done].
Qed.

(** Every title the first loop marks is a vassal of an independent
    title and has another holder than that title. *)
Lemma splitTitleStep_marks w acc tag newIndeps :
  splitTitleStep coalesceProvinces w acc tag = Some newIndeps →
  ∃ before, acc = Some before ∧ ∀ x, x ∈ newIndeps →
    x ∈ before
    ∨ ∃ t, titles w !! tag = Some t ∧ x ∈ vassals t
           ∧ holderOf (titles w) x ≠ holder t.
Proof.
  unfold splitTitleStep. destruct acc as [before|]; [|done].
  intros Hstep. exists before. split; [done|].
  destruct (isUntouchable tag); [injection Hstep as <-; by left|].
  destruct (titles w !! tag) as [t|]; [|done].
  destruct (characters w !! holder t) as [h|]; [|done].
  destruct (isTribalOrNomadic h); [injection Hstep as <-; by left|].
  destruct (relevantVassalPrefix tag) as [pre|];
    [|injection Hstep as <-; by left].
  destruct (_ =? 0); injection Hstep as <-; [by left|].
  intros x Hx. apply liberate_fold in Hx as [?|(Hin & _ & Hh & _)]; [by left|].
  right. exists t. split; [done|].
  by apply elem_of_tags_in_order in Hin.
Qed.

Lemma newIndeps_fold w (l : list string) acc newIndeps :
  foldl (splitTitleStep coalesceProvinces w) acc l = Some newIndeps →
  ∃ before, acc = Some before ∧ ∀ x, x ∈ newIndeps →
    x ∈ before
    ∨ ∃ tag t, tag ∈ l ∧ titles w !! tag = Some t ∧ x ∈ vassals t
               ∧ holderOf (titles w) x ≠ holder t.
Proof.
  revert acc. induction l as [|tag l IH]; intros acc; cbn [foldl].
  { intros ->. exists newIndeps. split; [done|]. by left. }
  intros Hfold. destruct (IH _ Hfold) as (mid & Hmid & Hmarks).
  destruct (splitTitleStep_marks _ _ _ _ Hmid) as (before & -> & Hstep).
  exists before. split; [done|]. intros x Hx.
  destruct (Hmarks x Hx) as [Hin|(tag' & t & Hin & ?)].
  - destruct (Hstep x Hin) as [?|(t & ?)]; [by left|right].
    exists tag, t. split; [left|done].
  - right. exists tag', t. split; [by right|done].
Qed.

(** The second loop adds the marked titles to the independent titles
    and changes nobody's holder. *)
Lemma free_fold (l : list string) acc w' :
  foldl freeStep acc l = Some w' →
  ∃ w, acc = Some w
       ∧ (∀ x, x ∈ independentTitles w' ↔ x ∈ independentTitles w ∨ x ∈ l)
       ∧ ∀ x, holderOf (titles w') x = holderOf (titles w) x.
Proof.
  revert acc. induction l as [|v l IH]; intros acc; cbn [foldl].
  { intros ->. exists w'. split; [done|]. split; [|done].
    intros x. rewrite elem_of_nil. naive_solver. }
  intros Hfold. destruct (IH _ Hfold) as (w1 & Hstep & Hindeps & Hholders).
  unfold freeStep in Hstep. destruct acc as [w|]; [|done].
  destruct (titles w !! v) as [t|] eqn:Ht; [|done].
  destruct (String.eqb (liege t) ""); [done|].
  injection Hstep as <-. exists w. split; [done|]. split.
  - intros x. rewrite Hindeps. cbn [independentTitles].
    rewrite elem_of_union, elem_of_singleton, elem_of_cons. naive_solver.
  - intros x. rewrite Hholders. unfold holderOf. cbn [titles].
    destruct (decide (x = v)) as [->|Hxv].
    + rewrite lookup_alter_eq.
      destruct (decide (liege t = v)) as [->|Hlv].
      * rewrite lookup_alter_eq, Ht. done.
      * rewrite lookup_alter_ne by done. rewrite Ht. done.
    + rewrite lookup_alter_ne by done.
      destruct (decide (liege t = x)) as [Hlx|Hlx].
      * rewrite Hlx, lookup_alter_eq. by destruct (titles w !! x).
      * by rewrite lookup_alter_ne.
Qed.

(** Vassal splitting keeps every independent title with a holder as
    long as no vassal of an independent title is without holder: only a
    vassal without holder can enter the set without one. *)
Lemma splitVassals_holders w w' log :
  splitVassals coalesceProvinces w = Some (w', log) →
  (∀ tag, tag ∈ independentTitles w → holderOf (titles w) tag ≠ 0) →
  (∀ tag t v, tag ∈ independentTitles w → titles w !! tag = Some t →
              v ∈ vassals t → holderOf (titles w) v ≠ 0) →
  ∀ tag, tag ∈ independentTitles w' → holderOf (titles w') tag ≠ 0.
Proof.
  unfold splitVassals, newIndepsOf. intros Hrun Hindeps Hvassals tag Htag.
  destruct (foldl (splitTitleStep coalesceProvinces w) (Some ∅)
                  (tags_in_order (independentTitles w)))
    as [newIndeps|] eqn:Hmark; [|done].
  destruct (foldl freeStep (Some w) (tags_in_order newIndeps))
    as [w1|] eqn:Hfree; [|done].
  injection Hrun as -> _.
  destruct (free_fold _ _ _ Hfree) as (w0 & [= <-] & Hset & Hholders).
  rewrite Hholders. apply Hset in Htag as [Htag|Htag]; [by apply Hindeps|].
  apply elem_of_tags_in_order in Htag.
  destruct (newIndeps_fold _ _ _ _ Hmark) as (before & [= <-] & Hmarks).
  destruct (Hmarks tag Htag) as [Hin|(lg & t & Hlg & Ht & Hv & _)];
    [by apply elem_of_empty in Hin|].
  apply elem_of_tags_in_order in Hlg. by eapply Hvassals.
Qed.

End SplitVassalsFacts.

(** The threshold at a boundary, computed in binary64: with 10 claimed
    provinces and 2 relevant vassals it is 6; a vassal with 6 provinces
    stays, one with 7 is liberated. *)
Example exceedsThreshold_10_2 :
  threshold 10 2 = Double.of_Z 6
  ∧ exceedsThreshold 6 10 2 = false ∧ exceedsThreshold 7 10 2 = true.
Proof. repeat split; vm_compute; reflexivity. Qed.

(** [boundaryCount] is the integer part of [T/N + T/10]. *)
Lemma boundaryCount_floor (total relevantVassals : Z) :
  0 < relevantVassals →
  10 * relevantVassals * boundaryCount total relevantVassals
    <= total * (10 + relevantVassals)
  ∧ total * (10 + relevantVassals)
    < 10 * relevantVassals * (boundaryCount total relevantVassals + 1).
Proof.
  intros Hn. unfold boundaryCount.
  pose proof (Z.mul_div_le (total * (10 + relevantVassals))
                           (10 * relevantVassals)) as Hle.
  pose proof (Z.mul_succ_div_gt (total * (10 + relevantVassals))
                                (10 * relevantVassals)) as Hgt.
  split; [apply Hle; lia|]. unfold Z.succ in Hgt. apply Hgt. lia.
Qed.

(** For up to 150 claimed provinces and up to 40 relevant vassals the
    binary64 test keeps a vassal with [boundaryCount] provinces and
    liberates one with a province more. *)
Lemma exceedsThreshold_boundary_small (total relevantVassals : Z) :
  0 <= total <= 150 → 1 <= relevantVassals <= 40 →
  exceedsThreshold (boundaryCount total relevantVassals)
                   total relevantVassals = false
  ∧ exceedsThreshold (boundaryCount total relevantVassals + 1)
                     total relevantVassals = true.
Proof.
  intros Ht Hn.
  assert (Hall : boundaryHoldsUpTo 150 40 = true) by (vm_compute; reflexivity).
  unfold boundaryHoldsUpTo in Hall. rewrite forallb_forall in Hall.
  specialize (Hall (Z.to_nat total)).
  rewrite forallb_forall in Hall.
  assert (Hin1 : In (Z.to_nat total) (seq 0 151)) by (apply in_seq; lia).
  specialize (Hall Hin1 (Z.to_nat (relevantVassals - 1))).
  assert (Hin2 : In (Z.to_nat (relevantVassals - 1)) (seq 0 40))
    by (apply in_seq; lia).
  specialize (Hall Hin2).
  replace (Z.of_nat (Z.to_nat total)) with total in Hall by lia.
  replace (Z.of_nat (S (Z.to_nat (relevantVassals - 1))))
    with relevantVassals in Hall by lia.
  unfold boundaryHolds in Hall. apply andb_true_iff in Hall as [H1 H2].
  apply negb_true_iff in H1. done.
Qed.

(** Claim C4, evaluated.  After the classifier and vassal splitting the
    independent-title set holds [d_b], a title without holder: the
    classifier admitted the kingdom [k_a], and splitting its vassals
    freed the duchy, whose holder (none) differs from the kingdom's and
    whose seven provinces exceed the threshold of six.  The title has
    provinces, so the later removal of provinceless titles keeps it. *)
Theorem splitVassals_frees_holderless :
  ∃ w' log,
    splitVassals coalesceProvincesOf (filterIndependentTitles realm).1
    = Some (w', log)
    ∧ "d_b" ∈ independentTitles w'
    ∧ holderOf (titles w') "d_b" = 0
    ∧ "d_b" ∈ independentTitles (filterProvincelessTitles w').1.
Proof.
  assert (Hfacts :
    option_map (fun r : World * list LogEntry =>
                  (bool_decide ("d_b" ∈ independentTitles r.1),
                   holderOf (titles r.1) "d_b",
                   isProvinceless (titles r.1) "d_b"))
               (splitVassals coalesceProvincesOf
                             (filterIndependentTitles realm).1)
    = Some (true, 0, false)) by (vm_compute; reflexivity).
  destruct (splitVassals coalesceProvincesOf (filterIndependentTitles realm).1)
    as [[w' log]|]; [|discriminate].
  simpl in Hfacts. injection Hfacts as Hin Hholder Hprov.
  apply bool_decide_eq_true in Hin.
  exists w', log. repeat split; try done.
  unfold filterProvincelessTitles. simpl.
  apply elem_of_difference. split; [done|].
  rewrite elem_of_filter. intros [Hp _]. congruence.
Qed.

(** ** The province watchdog *)

Section Watchdog.

Lemma string_app_assoc (s1 s2 s3 : string) :
  (s1 +:+ s2) +:+ s3 = s1 +:+ (s2 +:+ s3).
Proof.
  induction s1 as [|a s1 IH]; [done|].
  change (String a ((s1 +:+ s2) +:+ s3) = String a (s1 +:+ (s2 +:+ s3))).
  by rewrite IH.
Qed.

Lemma recordOwner_fold indep (l : list Z) (m : gmap Z (list string)) :
  NoDup l → noEmptyEntry m →
  noEmptyEntry (foldl (recordOwner indep) m l)
  ∧ ∀ p, ownersIn (foldl (recordOwner indep) m l) p
         = ownersIn m p ++ (if decide (p ∈ l) then [indep] else []).
Proof.
  revert m. induction l as [|q l IH]; intros m Hnd Hne; cbn [foldl].
  { split; [done|]. intros p. rewrite decide_False by apply not_elem_of_nil.
    by rewrite app_nil_r. }
  apply NoDup_cons in Hnd as [Hq Hnd].
  assert (Hne' : noEmptyEntry (recordOwner indep m q)).
  { intros p. unfold recordOwner.
    destruct (decide (q = p)) as [->|Hqp].
    - rewrite lookup_insert_eq. intros [= H].
      by apply app_eq_nil in H as [_ ?].
    - rewrite lookup_insert_ne by done. apply Hne. }
  destruct (IH _ Hnd Hne') as [Hne'' Hown]. split; [done|].
  intros p. rewrite Hown. unfold ownersIn at 1, recordOwner.
  destruct (decide (q = p)) as [->|Hqp].
  - rewrite lookup_insert_eq. simpl.
    rewrite decide_False by done. rewrite decide_True by left.
    by rewrite app_nil_r.
  - rewrite lookup_insert_ne by done. fold (ownersIn m p).
    destruct (decide (p ∈ l)) as [Hin|Hnin].
    + by rewrite decide_True by (by right).
    + rewrite decide_False; [done|].
      intros Hin. apply elem_of_cons in Hin as [?|?]; congruence.
Qed.

Lemma recordTitle_spec ts indep (m : gmap Z (list string)) :
  noEmptyEntry m →
  noEmptyEntry (recordTitle ts m indep)
  ∧ ∀ p, ownersIn (recordTitle ts m indep) p
         = ownersIn m p ++ (if claimsb ts p indep then [indep] else []).
Proof.
  intros Hne. unfold recordTitle, claimsb.
  destruct (ts !! indep) as [T|].
  - destruct (recordOwner_fold indep (ids_in_order (provinces T)) m
                (ids_in_order_NoDup _) Hne) as [Hne' Hown].
    split; [done|]. intros p. rewrite Hown.
    destruct (decide (p ∈ ids_in_order (provinces T))) as [Hin|Hnin].
    + rewrite elem_of_ids_in_order in Hin.
      by rewrite bool_decide_eq_true_2.
    + rewrite elem_of_ids_in_order in Hnin.
      by rewrite bool_decide_eq_false_2.
  - split; [done|]. intros p. by rewrite app_nil_r.
Qed.

Lemma recordTitles_fold ts (l : list string) (m : gmap Z (list string)) :
  noEmptyEntry m →
  noEmptyEntry (foldl (recordTitle ts) m l)
  ∧ ∀ p, ownersIn (foldl (recordTitle ts) m l) p
         = ownersIn m p ++ filter (fun t => claimsb ts p t = true) l.
Proof.
  revert m. induction l as [|t l IH]; intros m Hne; simpl.
  { split; [done|]. intros p. by rewrite app_nil_r. }
  destruct (recordTitle_spec ts t m Hne) as [Hne' Hown].
  destruct (IH _ Hne') as [Hne'' Hown']. split; [done|].
  intros p. rewrite Hown', Hown, filter_cons, <- app_assoc.
  destruct (claimsb ts p t).
  - by rewrite decide_True.
  - by rewrite decide_False.
Qed.

Lemma provinceTitlesMap_lookup w p :
  provinceTitlesMap w !! p
  = match ownersOf w p with [] => None | owners => Some owners end.
Proof.
  unfold provinceTitlesMap, ownersOf.
  destruct (recordTitles_fold (titles w)
              (tags_in_order (independentTitles w)) ∅)
    as [Hne Hown]; [intros q; by rewrite lookup_empty|].
  specialize (Hown p). specialize (Hne p).
  unfold ownersIn in Hown. rewrite lookup_empty in Hown. simpl in Hown.
  destruct (foldl _ _ _ !! p) as [[|o os]|]; simpl in Hown;
    [done|by rewrite <- Hown|by rewrite <- Hown].
Qed.

Lemma elem_of_ownersOf w p t : t ∈ ownersOf w p ↔ claims w t p.
Proof.
  unfold ownersOf, claims, claimsb.
  rewrite list_elem_of_filter, elem_of_tags_in_order.
  destruct (titles w !! t) as [T|].
  - rewrite bool_decide_eq_true. naive_solver.
  - naive_solver.
Qed.

Lemma ownersOf_NoDup w p : NoDup (ownersOf w p).
Proof. apply NoDup_filter, tags_in_order_NoDup. Qed.

Lemma several_iff_distinct (l : list string) :
  NoDup l →
  (1 < length l)%nat ↔ ∃ x y, x ≠ y ∧ x ∈ l ∧ y ∈ l.
Proof.
  intros Hnd. destruct l as [|a [|b l]]; simpl.
  - split; [lia|]. intros (x & _ & _ & Hx & _). by apply elem_of_nil in Hx.
  - split; [lia|]. intros (x & y & Hne & Hx & Hy).
    apply list_elem_of_singleton in Hx, Hy. congruence.
  - split; [|lia]. intros _. exists a, b.
    apply NoDup_cons in Hnd as [Ha _].
    split; [|split; [left|right; left]].
    intros ->. apply Ha. left.
Qed.

(** The second loop. *)
Lemma explode_fold (l : list (Z * list string)) log sanity :
  foldl explodeStep (log, sanity) l
  = (log ++ ((fun e : Z * list string =>
                (Warning, provinceWarning e.1 e.2))
             <$> filter (fun e : Z * list string => (1 < length e.2)%nat) l),
     sanity && bool_decide (Forall (fun e : Z * list string =>
                                      ¬ (1 < length e.2)%nat) l)).
Proof.
  revert log sanity. induction l as [|e l IH]; intros log sanity; simpl.
  { by rewrite app_nil_r, andb_true_r. }
  rewrite filter_cons. destruct (Nat.ltb_spec 1 (length e.2)) as [Hlt|Hge].
  - rewrite IH, decide_True by done. rewrite fmap_cons, <- app_assoc. simpl.
    f_equal. symmetry. rewrite andb_false_iff. right.
    apply bool_decide_eq_false. intros H. apply Forall_cons in H as [H _].
    done.
  - rewrite IH, decide_False by lia. f_equal. f_equal.
    apply bool_decide_ext. rewrite Forall_cons. split; [|naive_solver].
    intros H. split; [lia|done].
Qed.

Lemma provinceWarning_shape p owners :
  provinceWarning p owners
  = ("Province ID: " +:+ pretty p +:+ " is owned by: ")
    +:+ foldl (fun warning owner => warning +:+ owner +:+ ",") "" owners.
Proof.
  unfold provinceWarning.
  generalize ("Province ID: " +:+ pretty p +:+ " is owned by: ").
  induction owners as [|o os IH] using rev_ind; intros s.
  - simpl. induction s as [|a s IHs]; [done|].
    change (String a s = String a (s +:+ "")). by rewrite <- IHs.
  - rewrite !foldl_app. simpl. rewrite IH.
    by rewrite !string_app_assoc.
Qed.

Lemma provinceWarning_names p owners t :
  t ∈ owners →
  ∃ pre post, provinceWarning p owners = pre +:+ t +:+ "," +:+ post.
Proof.
  intros Hin. apply list_elem_of_split in Hin as (l1 & l2 & ->).
  unfold provinceWarning. rewrite foldl_app. simpl.
  set (f := fun warning owner : string => warning +:+ owner +:+ ",").
  set (s0 := foldl f ("Province ID: " +:+ pretty p +:+ " is owned by: ") l1).
  exists s0, (foldl f "" l2).
  assert (Hgen : ∀ l s, foldl f s l = s +:+ foldl f "" l).
  { induction l as [|o os IH] using rev_ind; intros s.
    - simpl. induction s as [|a s IHs]; [done|].
      change (String a s = String a (s +:+ "")). by rewrite <- IHs.
    - rewrite !foldl_app. simpl. rewrite IH. unfold f.
      by rewrite !string_app_assoc. }
  rewrite Hgen. unfold f. by rewrite !string_app_assoc.
Qed.

Lemma entry_of_provinceTitlesMap w p owners :
  (p, owners) ∈ in_order (provinceTitlesMap w) ↔
    owners = ownersOf w p ∧ owners ≠ [].
Proof.
  rewrite elem_of_in_order, provinceTitlesMap_lookup.
  destruct (ownersOf w p) as [|o os]; split.
  - done.
  - intros [-> ?]. done.
  - intros [= <-]. done.
  - intros [-> _]. done.
Qed.

Lemma contested_iff w p :
  (1 < length (ownersOf w p))%nat ↔
    ∃ t1 t2, t1 ≠ t2 ∧ claims w t1 p ∧ claims w t2 p.
Proof.
  rewrite (several_iff_distinct _ (ownersOf_NoDup w p)).
  by setoid_rewrite elem_of_ownersOf.
Qed.

Lemma watchdog_log w :
  (sanityCheckifyProvinces w).2
  = ((fun e : Z * list string => (Warning, provinceWarning e.1 e.2))
       <$> filter (fun e : Z * list string => (1 < length e.2)%nat)
                  (in_order (provinceTitlesMap w)))
    ++ (if bool_decide (Forall (fun e : Z * list string =>
                                  ¬ (1 < length e.2)%nat)
                               (in_order (provinceTitlesMap w)))
        then [(Info, "<> Province sanity check passed, all provinces accounted for.")]
        else [(Warning, "!! Province sanity check failed! We have excess provinces!")]).
Proof.
  unfold sanityCheckifyProvinces. rewrite explode_fold. done.
Qed.

End Watchdog.

(** Claim C5.  The watchdog returns the world it was given; its log
    holds a warning exactly when two different independent titles have a
    province in common; and for every such province the log holds a
    warning that starts with the province identifier and names every
    independent title claiming it. *)
Theorem sanityCheckifyProvinces_spec (w : World) :
  (sanityCheckifyProvinces w).1 = w
  ∧ ((∃ e, e ∈ (sanityCheckifyProvinces w).2 ∧ is_warning e = true) ↔
     ∃ p t1 t2, t1 ≠ t2 ∧ claims w t1 p ∧ claims w t2 p)
  ∧ (∀ p t1 t2, t1 ≠ t2 → claims w t1 p → claims w t2 p →
       ∃ msg, (Warning, msg) ∈ (sanityCheckifyProvinces w).2
              ∧ (∃ post, msg = ("Province ID: " +:+ pretty p
                                +:+ " is owned by: ") +:+ post)
              ∧ ∀ t, claims w t p →
                     ∃ pre post, msg = pre +:+ t +:+ "," +:+ post).
Proof.
  split; [|split].
  - unfold sanityCheckifyProvinces. by destruct (foldl _ _ _).
  - rewrite watchdog_log. split.
    + intros (e & He & Hw).
      assert (Hex : ∃ p owners, (p, owners) ∈ in_order (provinceTitlesMap w)
                                ∧ (1 < length owners)%nat).
      { apply elem_of_app in He as [He|He].
        - apply list_elem_of_fmap in He as ([p owners] & _ & He).
          apply list_elem_of_filter in He as [Hlen He]. eauto.
        - destruct (bool_decide (Forall _ _)) eqn:Hall.
          + apply list_elem_of_singleton in He as ->. done.
          + apply bool_decide_eq_false in Hall.
            apply not_Forall_Exists in Hall; [|apply _].
            apply Exists_exists in Hall as ([p owners] & Hin & Hlen).
            exists p, owners. split; [done|].
            destruct (decide (1 < length owners)%nat); [done|].
            exfalso. by apply Hlen. }
      destruct Hex as (p & owners & Hin & Hlen).
      apply entry_of_provinceTitlesMap in Hin as [-> _].
      exists p. by apply contested_iff.
    + intros (p & Hp). apply contested_iff in Hp.
      exists (Warning, provinceWarning p (ownersOf w p)). split; [|done].
      apply elem_of_app. left. apply list_elem_of_fmap.
      exists (p, ownersOf w p). split; [done|].
      apply list_elem_of_filter. split; [done|].
      apply entry_of_provinceTitlesMap. split; [done|].
      intros Hnil. rewrite Hnil in Hp. simpl in Hp. lia.
  - intros p t1 t2 Hne H1 H2.
    assert (Hp : (1 < length (ownersOf w p))%nat)
      by (apply contested_iff; eauto).
    exists (provinceWarning p (ownersOf w p)). split; [|split].
    + rewrite watchdog_log. apply elem_of_app. left. apply list_elem_of_fmap.
      exists (p, ownersOf w p). split; [done|].
      apply list_elem_of_filter. split; [done|].
      apply entry_of_provinceTitlesMap. split; [done|].
      intros Hnil. rewrite Hnil in Hp. simpl in Hp. lia.
    + eexists. apply provinceWarning_shape.
    + intros t Ht. apply provinceWarning_names. by apply elem_of_ownersOf.
Qed.

Example sanityCheckifyProvinces_overlapping :
  (sanityCheckifyProvinces overlapping).2
  = [(Warning, "Province ID: 5 is owned by: c_one,c_two,");
     (Warning, "!! Province sanity check failed! We have excess provinces!")].
Proof. vm_compute. reflexivity. Qed.

(** ** Recovery of missing religion and culture definitions *)

Section RecoveryFacts.

Context (State : Type)
        (getCharacters : State → gmap Z Recovery.Creed)
        (getMods : Configuration → list Recovery.Mod)
        (doesFolderExist : string → bool)
        (GetAllFilesInFolder : string → list string)
        (underLoadDynasties : string → State → State).

Abbreviation insane := (Recovery.insanityCounter State getCharacters).
Abbreviation loadMod :=
  (Recovery.loadMod State doesFolderExist GetAllFilesInFolder
                    underLoadDynasties).
Abbreviation rummage :=
  (Recovery.rummage State getCharacters doesFolderExist
                    GetAllFilesInFolder underLoadDynasties).
Abbreviation loadDynastiesFromMods :=
  (Recovery.loadDynastiesFromMods State getCharacters getMods
     doesFolderExist GetAllFilesInFolder underLoadDynasties).
Abbreviation verifyReligionsAndCultures :=
  (Recovery.verifyReligionsAndCultures State getCharacters getMods
     doesFolderExist GetAllFilesInFolder underLoadDynasties).
Abbreviation insaneBefore :=
  (Recovery.insaneBefore State getCharacters doesFolderExist
     GetAllFilesInFolder underLoadDynasties).

Lemma insaneBefore_cons s m tried :
  insane s ≠ 0%nat → insaneBefore (loadMod s m) tried →
  insaneBefore s (m :: tried).
Proof.
  intros Hs Htried pre x suf Heq. destruct pre as [|y pre]; [done|].
  simpl in Heq. injection Heq as -> ->. simpl. by eapply Htried.
Qed.

Ltac differ H := vm_compute in H; discriminate.

Lemma rummage_spec (mods : list Recovery.Mod) (s : State)
    (log : list LogEntry) :
  insane s ≠ 0%nat →
  ∃ tried rest extra,
    mods = tried ++ rest
    ∧ (rummage mods s log).1.1 = foldl loadMod s tried
    ∧ (rummage mods s log).2 = log ++ extra
    ∧ (Recovery.didWhatWeCould ∉ extra)
    ∧ ((Info, "*** Intermezzo ***") ∉ extra)
    ∧ insaneBefore s tried
    ∧ (rummage mods s log).1.2
      = bool_decide (insane (foldl loadMod s tried) = 0%nat)
    ∧ ((rummage mods s log).1.2 = false → rest = []).
Proof.
  revert s log. induction mods as [|m mods IH]; intros s log Hs.
  { exists [], [], []. simpl. rewrite app_nil_r.
    repeat split; try done; try apply not_elem_of_nil.
    - intros pre x suf Heq. by destruct pre.
    - by rewrite bool_decide_eq_false_2. }
  simpl. destruct (doesFolderExist (Recovery.dynastiesFolder m)) eqn:Hfolder.
  - destruct (Nat.eqb_spec (insane (loadMod s m)) 0) as [Hsane|Hinsane].
    + exists [m], mods. eexists. simpl.
      split; [done|]. split; [done|]. split; [by rewrite <- app_assoc|].
      split; [|split; [|split; [|split]]].
      * intros Hin. apply elem_of_cons in Hin as [H|Hin]; [differ H|].
        apply list_elem_of_singleton in Hin. differ Hin.
      * intros Hin. apply elem_of_cons in Hin as [H|Hin]; [differ H|].
        apply list_elem_of_singleton in Hin. differ Hin.
      * intros pre x suf Heq. destruct pre as [|y [|z pre]]; [done|..];
          simpl in Heq; discriminate.
      * by rewrite bool_decide_eq_true_2.
      * done.
    + destruct (IH (loadMod s m)
                  ((log ++ [(Info, "Found something interesting in " +:+ m.1)])
                   ++ [(Warning, "! " +:+ pretty (insane (loadMod s m))
                          +:+ " characters are still lacking definitions. Continuing with the rummage.")])
                  Hinsane)
        as (tried & rest & extra & -> & Hst & Hlog & Hno & Hno' & Hbefore
            & Hflag & Hrest).
      exists (m :: tried), rest. eexists.
      split; [done|]. split; [exact Hst|].
      split; [rewrite Hlog, <- !app_assoc; done|].
      split; [|split; [|split; [|split]]].
      * simpl. intros Hin. apply elem_of_cons in Hin as [H|Hin]; [differ H|].
        apply elem_of_cons in Hin as [H|Hin]; [differ H|done].
      * simpl. intros Hin. apply elem_of_cons in Hin as [H|Hin]; [differ H|].
        apply elem_of_cons in Hin as [H|Hin]; [differ H|done].
      * by apply insaneBefore_cons.
      * exact Hflag.
      * exact Hrest.
  - assert (Hsame : loadMod s m = s)
      by (unfold Recovery.loadMod; by rewrite Hfolder).
    destruct (IH s log Hs)
      as (tried & rest & extra & -> & Hst & Hlog & Hno & Hno' & Hbefore
          & Hflag & Hrest).
    exists (m :: tried), rest, extra. simpl. rewrite Hsame.
    repeat split; try done.
    apply insaneBefore_cons; [done|]. by rewrite Hsame.
Qed.

Lemma loadDynastiesFromMods_spec (cfg : Configuration) (s : State) :
  insane s ≠ 0%nat →
  ∃ tried rest,
    getMods cfg = tried ++ rest
    ∧ (loadDynastiesFromMods cfg s).1 = foldl loadMod s tried
    ∧ insaneBefore s tried
    ∧ (Info, "*** Intermezzo ***") ∈ (loadDynastiesFromMods cfg s).2
    ∧ (insane (loadDynastiesFromMods cfg s).1 ≠ 0%nat →
         rest = [] ∧ Recovery.didWhatWeCould ∈ (loadDynastiesFromMods cfg s).2)
    ∧ (insane (loadDynastiesFromMods cfg s).1 = 0%nat →
         Recovery.didWhatWeCould ∉ (loadDynastiesFromMods cfg s).2).
Proof.
  intros Hs. unfold Recovery.loadDynastiesFromMods.
  destruct (rummage_spec (getMods cfg) s
              [(Info, "*** Intermezzo ***");
               (Info, "-> Locating mods in mod folder");
               (Info, "-> Rummaging through mods in search of definitions.")]
              Hs)
    as (tried & rest & extra & Hmods & Hst & Hlog & Hno & _ & Hbefore
        & Hflag & Hrest).
  destruct (rummage _ _ _) as [[s' sane] log].
  simpl in Hst, Hlog, Hflag, Hrest. subst s' log. cbn [fst snd].
  exists tried, rest. split; [done|]. split; [done|]. split; [done|].
  split; [apply elem_of_app; left; left|]. split.
  - intros Hinsane. rewrite bool_decide_eq_false_2 in Hflag by done.
    subst sane. split; [by apply Hrest|].
    apply elem_of_app. right. left.
  - intros Hsane. rewrite bool_decide_eq_true_2 in Hflag by done.
    subst sane. intros Hin.
    apply elem_of_app in Hin as [Hin|Hin].
    + apply elem_of_cons in Hin as [H|Hin]; [differ H|].
      apply elem_of_cons in Hin as [H|Hin]; [differ H|].
      apply elem_of_cons in Hin as [H|Hin]; [differ H|done].
    + apply list_elem_of_singleton in Hin. differ Hin.
Qed.

End RecoveryFacts.

(** ** Succession: what the resolvers appoint in general *)

Import SuccessionSamples.

Section ResolverFacts.

Lemma elem_of_sort_ascending (v : ChildVector) c :
  c ∈ sort_ascending v ↔ c ∈ v.
Proof. unfold sort_ascending. by rewrite merge_sort_Permutation. Qed.

Lemma elem_of_eldestFirst holder c :
  c ∈ sort_ascending (in_order (children holder))
  ↔ children holder !! c.1 = Some c.2.
Proof.
  rewrite elem_of_sort_ascending. destruct c as [k p]. apply elem_of_in_order.
Qed.

Lemma elem_of_youngestFirst holder c :
  c ∈ youngestFirst holder ↔ children holder !! c.1 = Some c.2.
Proof.
  unfold youngestFirst, sort_descending. rewrite elem_of_reverse.
  apply elem_of_eldestFirst.
Qed.


Lemma candidateOf_mono sex v v' r :
  (∀ c, c ∈ v → c ∈ v') → candidateOf sex v r → candidateOf sex v' r.
Proof.
  intros Hsub [->|(c & Hc & ? & ? & ?)]; [by left|].
  right. exists c. auto.
Qed.

Lemma scanPrimogenitureStep_candidates v acc c :
  c ∈ v → candidateOf false v acc.1 → candidateOf true v acc.2 →
  candidateOf false v (scanPrimogenitureStep acc c).1
  ∧ candidateOf true v (scanPrimogenitureStep acc c).2.
Proof.
  destruct acc as [son daughter]. cbn [fst snd]. intros Hc Hs Hd.
  unfold scanPrimogenitureStep.
  destruct (isAlive (pointee c.2)) eqn:Halive; cbn [negb]; [|done].
  assert (Hme : ∀ sex, female (pointee c.2) = sex →
                       candidateOf sex v (toRef c)).
  { intros sex Hsex. right. exists c. auto. }
  destruct (female (pointee c.2)) eqn:Hf; cbn [negb fst snd];
    rewrite ?andb_false_r, ?andb_true_r; cbn [andb];
    repeat match goal with
           | |- context [if ?b then _ else _] => destruct b
           end; split; auto.
Qed.

Lemma scanUltimogenitureStep_candidates v acc c :
  c ∈ v → candidateOf false v acc.1 → candidateOf true v acc.2 →
  candidateOf false v (scanUltimogenitureStep acc c).1
  ∧ candidateOf true v (scanUltimogenitureStep acc c).2.
Proof.
  destruct acc as [son daughter]. cbn [fst snd]. intros Hc Hs Hd.
  unfold scanUltimogenitureStep.
  destruct (isAlive (pointee c.2)) eqn:Halive; cbn [negb]; [|done].
  assert (Hme : ∀ sex, female (pointee c.2) = sex →
                       candidateOf sex v (toRef c)).
  { intros sex Hsex. right. exists c. auto. }
  destruct (female (pointee c.2)) eqn:Hf; cbn [negb fst snd];
    rewrite ?andb_false_r, ?andb_true_r; cbn [andb];
    repeat match goal with
           | |- context [if ?b then _ else _] => destruct b
           end; split; auto.
Qed.

Lemma scan_candidates step v (l : list (Z * shared_ptr Character)) acc :
  (∀ acc c, c ∈ v → candidateOf false v acc.1 → candidateOf true v acc.2 →
            candidateOf false v (step acc c).1
            ∧ candidateOf true v (step acc c).2) →
  (∀ c, c ∈ l → c ∈ v) →
  candidateOf false v acc.1 → candidateOf true v acc.2 →
  candidateOf false v (foldl step acc l).1
  ∧ candidateOf true v (foldl step acc l).2.
Proof.
  intros Hstep. revert acc.
  induction l as [|c l IH]; intros acc Hl Hs Hd; [done|].
  cbn [foldl]. destruct (Hstep acc c) as [Hs' Hd']; [apply Hl; left|done..|].
  apply IH; [|done..]. intros c' Hc'. apply Hl. by right.
Qed.

Lemma scanPrimogeniture_candidates v :
  candidateOf false v (scanPrimogeniture v).1
  ∧ candidateOf true v (scanPrimogeniture v).2.
Proof.
  apply scan_candidates; [apply scanPrimogenitureStep_candidates|done|..];
    by left.
Qed.

Lemma scanUltimogeniture_candidates v :
  candidateOf false v (scanUltimogeniture v).1
  ∧ candidateOf true v (scanUltimogeniture v).2.
Proof.
  apply scan_candidates; [apply scanUltimogenitureStep_candidates|done|..];
    by left.
Qed.

(** Whatever the gender law, the choice appoints one of the two
    candidates or leaves the holder alone. *)
Lemma pickPrimogeniture_cases genderLaw son daughter holder :
  pickPrimogeniture genderLaw (son, daughter) holder = holder
  ∨ (son.1 ≠ 0
     ∧ pickPrimogeniture genderLaw (son, daughter) holder
       = setHeir son holder)
  ∨ (daughter.1 ≠ 0
     ∧ pickPrimogeniture genderLaw (son, daughter) holder
       = setHeir daughter holder).
Proof.
  unfold pickPrimogeniture.
  destruct (Z.eqb_spec son.1 0) as [Hs|Hs],
           (Z.eqb_spec daughter.1 0) as [Hd|Hd];
    cbn [negb andb orb]; rewrite ?andb_false_r, ?andb_true_r, ?orb_true_r;
    cbn [negb andb orb];
    repeat match goal with
           | |- context [if ?b then _ else _] => destruct b
           end; auto.
Qed.

Lemma pickUltimogeniture_cases genderLaw son daughter holder :
  pickUltimogeniture genderLaw (son, daughter) holder = holder
  ∨ (son.1 ≠ 0
     ∧ pickUltimogeniture genderLaw (son, daughter) holder
       = setHeir son holder)
  ∨ (daughter.1 ≠ 0
     ∧ pickUltimogeniture genderLaw (son, daughter) holder
       = setHeir daughter holder).
Proof.
  unfold pickUltimogeniture.
  destruct (Z.eqb_spec son.1 0) as [Hs|Hs],
           (Z.eqb_spec daughter.1 0) as [Hd|Hd];
    cbn [negb andb orb]; rewrite ?andb_false_r, ?andb_true_r, ?orb_true_r;
    cbn [negb andb orb];
    repeat match goal with
           | |- context [if ?b then _ else _] => destruct b
           end; auto.
Qed.

Lemma setHeir_setHeir r r' holder : setHeir r (setHeir r' holder) = setHeir r holder.
Proof. reflexivity. Qed.

End ResolverFacts.

Section PrimogenitureChain.











Lemma scanPrimogeniture_unset sex holder :
  (∀ i, ¬ livingChildOf sex holder i) →
  candidate sex (scanPrimogeniture
                   (sort_ascending (in_order (children holder))))
  = noChar.
Proof.
  intros Hnone.
  destruct (scanPrimogeniture_candidates
              (sort_ascending (in_order (children holder)))) as [Hs Hd].
  assert (Hr : candidateOf sex (sort_ascending (in_order (children holder)))
                 (candidate sex (scanPrimogeniture
                    (sort_ascending (in_order (children holder))))))
    by (by destruct sex).
  destruct Hr as [?|(c & Hc & _ & Ha & Hf)]; [done|].
  exfalso. apply (Hnone c.1). apply elem_of_eldestFirst in Hc.
  exists c.2. done.
Qed.

End PrimogenitureChain.

Section UltimogenitureFacts.



Lemma scanUltimogeniture_unset sex holder :
  (∀ i, ¬ livingChildOf sex holder i) →
  candidate sex (scanUltimogeniture (youngestFirst holder)) = noChar.
Proof.
  intros Hnone.
  destruct (scanUltimogeniture_candidates (youngestFirst holder)) as [Hs Hd].
  assert (Hr : candidateOf sex (youngestFirst holder)
                 (candidate sex (scanUltimogeniture (youngestFirst holder))))
    by (by destruct sex).
  destruct Hr as [?|(c & Hc & _ & Ha & Hf)]; [done|].
  exfalso. apply (Hnone c.1). apply elem_of_youngestFirst in Hc.
  exists c.2. done.
Qed.


End UltimogenitureFacts.

Section TurkishFacts.



Lemma firstLiving_none (v : ChildVector) :
  (∀ x, x ∈ v → isAlive (pointee x.2) = false) → firstLiving v = None.
Proof.
  induction v as [|c v IH]; intros Hdead; [done|].
  cbn [firstLiving]. rewrite (Hdead c) by left.
  apply IH. intros x Hx. apply Hdead. by right.
Qed.

Lemma elem_of_prestigeVector holder e :
  e ∈ sort_ascending (prestigeVector holder) ↔
    ∃ k, children holder !! k = Some e.2
         ∧ e.1 = to_int (lround (prestige (pointee e.2))).
Proof.
  rewrite elem_of_sort_ascending. unfold prestigeVector.
  rewrite list_elem_of_fmap. split.
  - intros ([k q] & -> & Hin). apply elem_of_in_order in Hin.
    exists k. done.
  - intros (k & Hk & He). exists (k, e.2).
    split; [|by apply elem_of_in_order].
    destruct e as [r q]. simpl in *. by rewrite He.
Qed.

End TurkishFacts.



(** Property X2.  A holder none of whose children is alive (a holder
    without children included) keeps the heir it has: none of the three
    resolvers calls [setHeir], whatever the gender law. *)
Theorem resolvers_need_living_child (genderLaw : string) (holder : Character) :
  (∀ k q, children holder !! k = Some q → isAlive (pointee q) = false) →
  resolveTurkish holder = holder
  ∧ resolvePrimogeniture genderLaw holder = holder
  ∧ resolveUltimogeniture genderLaw holder = holder.
Proof.
  intros Hdead.
  assert (Hnone : ∀ sex i, ¬ livingChildOf sex holder i).
  { intros sex i (q & Hq & Ha & _). rewrite (Hdead _ _ Hq) in Ha. done. }
  split; [|split].
  - unfold resolveTurkish. rewrite firstLiving_none; [done|].
    intros x Hx. apply elem_of_prestigeVector in Hx as (k & Hk & _).
    by apply (Hdead k).
  - unfold resolvePrimogeniture, primogenitureOn.
    pose proof (scanPrimogeniture_unset false holder (Hnone false)) as Hs.
    pose proof (scanPrimogeniture_unset true holder (Hnone true)) as Hd.
    unfold candidate in Hs, Hd.
    destruct (scanPrimogeniture _) as [son daughter]. cbn [fst snd] in Hs, Hd.
    subst. destruct (pickPrimogeniture_cases genderLaw noChar noChar holder)
      as [?|[[? _]|[? _]]]; done.
  - unfold resolveUltimogeniture.
    pose proof (scanUltimogeniture_unset false holder (Hnone false)) as Hs.
    pose proof (scanUltimogeniture_unset true holder (Hnone true)) as Hd.
    unfold candidate in Hs, Hd.
    destruct (scanUltimogeniture _) as [son daughter]. cbn [fst snd] in Hs, Hd.
    subst. destruct (pickUltimogeniture_cases genderLaw noChar noChar holder)
      as [?|[[? _]|[? _]]]; done.
Qed.

Lemma resolvers_need_living_child_witness :
  resolveTurkish bereavedFamily = bereavedFamily
  ∧ resolvePrimogeniture "cognatic" bereavedFamily = bereavedFamily
  ∧ resolveUltimogeniture "cognatic" bereavedFamily = bereavedFamily.
Proof.
  apply (resolvers_need_living_child "cognatic" bereavedFamily).
  intros k q Hq. apply elem_of_in_order in Hq.
  change (in_order (children bereavedFamily))
    with [(10, deadChild 100 10 false)] in Hq.
  apply list_elem_of_singleton in Hq. injection Hq as _ ->. reflexivity.
Defined.

(** Property X3.  Whatever the children and the gender law, each
    resolver either leaves the holder untouched or makes one of the
    holder's own living children the heir and changes nothing else: a
    dead child, or a character who is not a child of the holder, is
    never appointed. *)
Theorem resolvers_appoint_living_children
    (genderLaw : string) (holder : Character) :
  appointsLivingChild holder (resolvePrimogeniture genderLaw holder)
  ∧ appointsLivingChild holder (resolveUltimogeniture genderLaw holder)
  ∧ (resolveTurkish holder = holder
     ∨ ∃ k p, children holder !! k = Some p ∧ isAlive (pointee p) = true
              ∧ resolveTurkish holder
                = setHeir (charID (pointee p), Some p) holder).
Proof.
  assert (Hcand : ∀ sex v r,
            (∀ c, c ∈ v → children holder !! c.1 = Some c.2) →
            candidateOf sex v r → r.1 ≠ 0 →
            appointsLivingChild holder (setHeir r holder)).
  { intros sex v r Hv [->|(c & Hc & -> & Ha & _)] Hr; [done|].
    right. exists c.1, c.2. split; [by apply Hv|done]. }
  split; [|split].
  - unfold resolvePrimogeniture, primogenitureOn.
    destruct (scanPrimogeniture_candidates
                (sort_ascending (in_order (children holder)))) as [Hs Hd].
    destruct (scanPrimogeniture _) as [son daughter]. cbn [fst snd] in Hs, Hd.
    destruct (pickPrimogeniture_cases genderLaw son daughter holder)
      as [->|[[Hne ->]|[Hne ->]]]; [by left|..].
    + eapply Hcand; [|exact Hs|done]. intros c. apply elem_of_eldestFirst.
    + eapply Hcand; [|exact Hd|done]. intros c. apply elem_of_eldestFirst.
  - unfold resolveUltimogeniture.
    destruct (scanUltimogeniture_candidates (youngestFirst holder))
      as [Hs Hd].
    destruct (scanUltimogeniture _) as [son daughter]. cbn [fst snd] in Hs, Hd.
    destruct (pickUltimogeniture_cases genderLaw son daughter holder)
      as [->|[[Hne ->]|[Hne ->]]]; [by left|..].
    + eapply Hcand; [|exact Hs|done]. intros c. apply elem_of_youngestFirst.
    + eapply Hcand; [|exact Hd|done]. intros c. apply elem_of_youngestFirst.
  - destruct (firstLiving (sort_ascending (prestigeVector holder)))
      as [p|] eqn:Hfirst.
    + right.
      assert (Hp : ∃ y, y ∈ sort_ascending (prestigeVector holder)
                        ∧ y.2 = p ∧ isAlive (pointee p) = true).
      { clear -Hfirst.
        induction (sort_ascending (prestigeVector holder)) as [|c v IH];
          [done|].
        cbn [firstLiving] in Hfirst.
        destruct (isAlive (pointee c.2)) eqn:Ha.
        - injection Hfirst as <-. exists c. split; [left|done].
        - destruct (IH Hfirst) as (y & Hy & ?). exists y.
          split; [by right|done]. }
      destruct Hp as (y & Hy & <- & Ha).
      apply elem_of_prestigeVector in Hy as (k & Hk & _).
      exists k, y.2. unfold resolveTurkish. by rewrite Hfirst.
    + left. unfold resolveTurkish. by rewrite Hfirst.
Qed.

Section GenderLaws.

Lemma pick_male_preference genderLaw son daughter holder :
  genderLaw = "agnatic" ∨ genderLaw = "cognatic" → son.1 ≠ 0 →
  pickPrimogeniture genderLaw (son, daughter) holder = setHeir son holder
  ∧ pickUltimogeniture genderLaw (son, daughter) holder = setHeir son holder.
Proof.
  intros Hlaw Hs. unfold pickPrimogeniture, pickUltimogeniture.
  apply Z.eqb_neq in Hs. rewrite Hs. by destruct Hlaw as [-> | ->].
Qed.


Lemma pick_agnatic_no_son son daughter holder :
  son.1 = 0 →
  pickPrimogeniture "agnatic" (son, daughter) holder = holder
  ∧ pickUltimogeniture "agnatic" (son, daughter) holder = holder.
Proof.
  intros Hs. unfold pickPrimogeniture, pickUltimogeniture.
  apply Z.eqb_eq in Hs. by rewrite Hs.
Qed.

Lemma pick_unrecognised genderLaw cands holder :
  genderLaw ≠ "agnatic" → genderLaw ≠ "cognatic" →
  genderLaw ≠ "true_cognatic" →
  pickPrimogeniture genderLaw cands holder = holder
  ∧ pickUltimogeniture genderLaw cands holder = holder.
Proof.
  intros Ha Hc Ht. destruct cands as [son daughter].
  unfold pickPrimogeniture, pickUltimogeniture.
  apply String.eqb_neq in Ha, Hc, Ht. by rewrite Ha, Hc, Ht.
Qed.

End GenderLaws.



(** Property X5.  Under the [agnatic] law neither primogeniture nor
    ultimogeniture ever appoints a daughter: the holder is left
    untouched or receives a living son as heir, and a holder without a
    living son is left untouched however many daughters are alive. *)
Theorem agnatic_never_appoints_daughters (holder : Character) :
  let sonOrNobody (result : Character) : Prop :=
    (result = holder
     ∨ ∃ k p, children holder !! k = Some p ∧ isAlive (pointee p) = true
              ∧ female (pointee p) = false
              ∧ result = setHeir (k, Some p) holder)
    ∧ ((∀ i, ¬ livingSon holder i) → result = holder) in
  sonOrNobody (resolvePrimogeniture "agnatic" holder)
  ∧ sonOrNobody (resolveUltimogeniture "agnatic" holder).
Proof.
  cbv zeta.
  assert (Hcand : ∀ v son,
            (∀ c, c ∈ v → children holder !! c.1 = Some c.2) →
            candidateOf false v son →
            ∃ k p, children holder !! k = Some p
                   ∧ isAlive (pointee p) = true
                   ∧ female (pointee p) = false
                   ∧ (son.1 ≠ 0 → setHeir son holder
                                  = setHeir (k, Some p) holder)
            ∨ son.1 = 0).
  { intros v son Hv [->|(c & Hc & -> & Ha & Hf)].
    - exists 0, (mkPtr 0 holder). by right.
    - exists c.1, c.2. left. repeat split; [by apply Hv|done..]. }
  split; split.
  - unfold resolvePrimogeniture, primogenitureOn.
    destruct (scanPrimogeniture_candidates
                (sort_ascending (in_order (children holder)))) as [Hs _].
    destruct (scanPrimogeniture _) as [son daughter]. cbn [fst] in Hs.
    destruct (Z.eq_dec son.1 0) as [Hz|Hnz].
    + left. by apply pick_agnatic_no_son.
    + right.
      destruct (Hcand _ son (fun c => proj1 (elem_of_eldestFirst holder c)) Hs)
        as (k & p & [(Hk & Ha & Hf & Heq)|?]); [|done].
      exists k, p. repeat split; [done..|].
      rewrite <- Heq by done. apply pick_male_preference; [by left|done].
  - intros Hnone. unfold resolvePrimogeniture, primogenitureOn.
    pose proof (scanPrimogeniture_unset false holder Hnone) as Hs.
    unfold candidate in Hs. destruct (scanPrimogeniture _) as [son daughter].
    cbn [fst] in Hs. subst son. by apply pick_agnatic_no_son.
  - unfold resolveUltimogeniture.
    destruct (scanUltimogeniture_candidates (youngestFirst holder))
      as [Hs _].
    destruct (scanUltimogeniture _) as [son daughter]. cbn [fst] in Hs.
    destruct (Z.eq_dec son.1 0) as [Hz|Hnz].
    + left. by apply pick_agnatic_no_son.
    + right.
      destruct (Hcand _ son (fun c => proj1 (elem_of_youngestFirst holder c)) Hs)
        as (k & p & [(Hk & Ha & Hf & Heq)|?]); [|done].
      exists k, p. repeat split; [done..|].
      rewrite <- Heq by done. apply pick_male_preference; [by left|done].
  - intros Hnone. unfold resolveUltimogeniture.
    pose proof (scanUltimogeniture_unset false holder Hnone) as Hs.
    unfold candidate in Hs. destruct (scanUltimogeniture _) as [son daughter].
    cbn [fst] in Hs. subst son. by apply pick_agnatic_no_son.
Qed.



(** Property X7.  The resolvers know three gender laws.  Under any
    other one (the enatic laws of the game among them) primogeniture and
    ultimogeniture appoint nobody, whoever the children are. *)
Theorem unrecognised_gender_law_appoints_nobody
    (genderLaw : string) (holder : Character) :
  genderLaw ≠ "agnatic" → genderLaw ≠ "cognatic" →
  genderLaw ≠ "true_cognatic" →
  resolvePrimogeniture genderLaw holder = holder
  ∧ resolveUltimogeniture genderLaw holder = holder.
Proof.
  intros Ha Hc Ht. split.
  - apply (pick_unrecognised genderLaw); done.
  - apply (pick_unrecognised genderLaw); done.
Qed.

Lemma unrecognised_gender_law_appoints_nobody_witness :
  resolvePrimogeniture "enatic_cognatic" daughtersFamily = daughtersFamily
  ∧ resolveUltimogeniture "enatic" daughtersFamily = daughtersFamily.
Proof.
  split.
  - apply (unrecognised_gender_law_appoints_nobody "enatic_cognatic");
      discriminate.
  - apply (unrecognised_gender_law_appoints_nobody "enatic"); discriminate.
Defined.



(** ** Title passes: recognition, disposal, liberation *)

Import TitleSamples.

Section ClassifierFacts.

Lemma recognize_count ts holders l acc n :
  (foldl (recognizeStep ts holders) (acc, n) l).2
  = (n + length (filter (fun tag => holderOf ts tag ∈ holders) l))%nat.
Proof.
  revert acc n. induction l as [|v l IH]; intros acc n; cbn [foldl].
  { rewrite filter_nil. simpl. lia. }
  rewrite filter_cons. unfold recognizeStep at 2.
  destruct (decide (holderOf ts v ∈ holders)); rewrite IH; simpl; lia.
Qed.

Lemma sovereign_iff ts tag :
  sovereign ts tag ↔
    tag ∈ potentialIndeps ts ∧ holderOf ts tag ∈ countyHolders ts.
Proof.
  rewrite elem_of_potentialIndeps. unfold countyHolders, sovereign.
  rewrite countyHolders_fold. unfold holderOf. split.
  - intros (t & Ht & Hh & Hl & county & c & Hc & Hp & Hhc).
    split; [eauto|]. rewrite Ht. right. exists county, c.
    repeat split; try done. apply elem_of_tags_in_order, elem_of_dom. eauto.
  - intros [(t & Ht & Hh & Hl) Hc]. rewrite Ht in Hc.
    exists t. repeat split; try done.
    destruct Hc as [Hc|(county & c & _ & Hc & Hhc & _ & Hp)];
      [by apply elem_of_empty in Hc|eauto].
Qed.

End ClassifierFacts.

(** Property X8.  The sovereignty classifier leaves titles and
    characters alone and adds to the independent titles exactly the
    titles that have a holder, have no liege and whose holder holds some
    title named [c_...]; a ruler holding only landless titles is not
    recognised.  Starting from an empty set, the number it logs is the
    number of independent titles. *)
Theorem filterIndependentTitles_recognises (w : World) :
  titles (filterIndependentTitles w).1 = titles w
  ∧ characters (filterIndependentTitles w).1 = characters w
  ∧ (∀ tag, tag ∈ independentTitles (filterIndependentTitles w).1 ↔
            tag ∈ independentTitles w ∨ sovereign (titles w) tag)
  ∧ (independentTitles w = ∅ →
     (filterIndependentTitles w).2
     = [(Info, "<> "
               +:+ pretty (size (independentTitles
                                   (filterIndependentTitles w).1))
               +:+ " independent titles recognized.")]).
Proof.
  assert (Hset : ∀ tag,
            tag ∈ independentTitles (filterIndependentTitles w).1 ↔
            tag ∈ independentTitles w ∨ sovereign (titles w) tag).
  { intros tag. rewrite sovereign_iff. unfold filterIndependentTitles.
    pose proof (recognize_fold (titles w) (countyHolders (titles w))
                  (tags_in_order (potentialIndeps (titles w)))
                  (independentTitles w) 0%nat tag) as H.
    destruct (foldl _ _ _) as [indeps counter]. cbn [fst independentTitles] in *.
    by rewrite H, elem_of_tags_in_order. }
  split; [|split; [|split; [exact Hset|]]].
  - unfold filterIndependentTitles. by destruct (foldl _ _ _).
  - unfold filterIndependentTitles. by destruct (foldl _ _ _).
  - intros Hempty.
    assert (Hsize : size (independentTitles (filterIndependentTitles w).1)
                    = length (filter
                        (fun tag => holderOf (titles w) tag
                                    ∈ countyHolders (titles w))
                        (tags_in_order (potentialIndeps (titles w))))).
    { rewrite <- (size_list_to_set (C:=gset string))
        by (apply NoDup_filter, tags_in_order_NoDup).
      f_equal. apply set_eq. intros tag.
      rewrite Hset, Hempty, sovereign_iff, elem_of_list_to_set,
        list_elem_of_filter, elem_of_tags_in_order.
      rewrite elem_of_empty. naive_solver. }
    rewrite Hsize. unfold filterIndependentTitles.
    pose proof (recognize_count (titles w) (countyHolders (titles w))
                  (tags_in_order (potentialIndeps (titles w)))
                  (independentTitles w) 0%nat) as Hn.
    destruct (foldl _ _ _) as [indeps counter]. cbn [snd] in *.
    by rewrite Hn.
Qed.

(** Property X9.  Dropping provinceless titles keeps exactly the
    independent titles that own a province; the two numbers it logs,
    titles dropped and titles remaining, add up to the number of
    independent titles it started with; and a second run has nothing
    left to drop. *)
Theorem filterProvincelessTitles_spec (w : World) :
  let w' := (filterProvincelessTitles w).1 in
  titles w' = titles w ∧ characters w' = characters w
  ∧ (∀ tag, tag ∈ independentTitles w' ↔
            tag ∈ independentTitles w
            ∧ isProvinceless (titles w) tag = false)
  ∧ (∃ dropped : nat,
        (filterProvincelessTitles w).2
        = [(Info, "<> " +:+ pretty dropped +:+ " empty titles dropped, "
                  +:+ pretty (size (independentTitles w')) +:+ " remain.")]
        ∧ (dropped + size (independentTitles w')
           = size (independentTitles w))%nat)
  ∧ filterProvincelessTitles w'
    = (w', [(Info, "<> " +:+ pretty 0%nat +:+ " empty titles dropped, "
                   +:+ pretty (size (independentTitles w'))
                   +:+ " remain.")]).
Proof.
  cbv zeta. unfold filterProvincelessTitles. cbn [fst snd titles characters
    independentTitles].
  set (disposal := filter (fun tag => isProvinceless (titles w) tag = true)
                          (independentTitles w)).
  assert (Hsub : disposal ⊆ independentTitles w).
  { intros x Hx. by apply elem_of_filter in Hx as [_ ?]. }
  assert (Hkeep : ∀ tag, tag ∈ independentTitles w ∖ disposal ↔
                         tag ∈ independentTitles w
                         ∧ isProvinceless (titles w) tag = false).
  { intros tag. unfold disposal.
    rewrite elem_of_difference, elem_of_filter.
    destruct (isProvinceless (titles w) tag); naive_solver. }
  assert (Hagain : filter (fun tag => isProvinceless (titles w) tag = true)
                          (independentTitles w ∖ disposal) = ∅).
  { apply set_eq. intros tag. rewrite elem_of_filter, Hkeep, elem_of_empty.
    split; [|done]. intros (Ht & _ & Hf). congruence. }
  split; [done|]. split; [done|]. split; [exact Hkeep|]. split.
  - exists (size disposal). split; [done|].
    rewrite size_difference by done.
    pose proof (subseteq_size _ _ Hsub). lia.
  - rewrite Hagain, difference_empty_L, size_empty. done.
Qed.

Section MergeCount.

Lemma mergeBarony_count (ts : gmap string Title) (l : list string) :
  NoDup l →
  (foldl mergeBaronyStep (ts, 0%nat) l).2
  = length (filter (fun tag => mergeableIn ts tag = true) l).
Proof.
  induction l as [|v l IH] using rev_ind; intros Hnd; [done|].
  apply NoDup_app in Hnd as (Hnd & Hfresh & _).
  assert (Hv : v ∉ l) by (intros Hin; apply (Hfresh v Hin); left).
  specialize (IH Hnd). rewrite foldl_app, filter_app, length_app. cbn [foldl].
  pose proof (mergeBarony_fold ts l Hnd v) as Hlv.
  rewrite decide_False in Hlv by done.
  destruct (foldl mergeBaronyStep (ts, 0%nat) l) as [ts1 n].
  cbn [fst snd] in *. subst n. rewrite filter_cons, filter_nil.
  unfold mergeBaronyStep, mergeableIn, mergeable. rewrite Hlv.
  destruct (ts !! v) as [t|]; [|rewrite decide_False by done; simpl; lia].
  destruct (holder t =? 0); cbn [negb andb];
    [rewrite decide_False by done; simpl; lia|].
  destruct (String.eqb (liege t) ""); cbn [andb];
    [|rewrite decide_False by done; simpl; lia].
  destruct (hasPrefix "b_" v); cbn [andb];
    [|rewrite decide_False by done; simpl; lia].
  destruct (hasPrefix "c_" (deJureLiege t));
    [rewrite decide_True by done|rewrite decide_False by done];
    simpl; lia.
Qed.

End MergeCount.

(** Property X10.  The number of baronies the merge reports is the
    number of titles of the table it reattaches: those with a holder, no
    liege, a [b_] tag and a de-jure liege tagged [c_...]. *)
Theorem mergeIndependentBaronies_count (ts : gmap string Title) :
  (mergeIndependentBaronies ts).2
  = [(Info, "<> " +:+ pretty (size (mergeableTags ts))
            +:+ " baronies reassigned.")].
Proof.
  unfold mergeIndependentBaronies.
  pose proof (mergeBarony_count ts (tags_in_order (dom ts))
                (tags_in_order_NoDup _)) as Hn.
  destruct (foldl mergeBaronyStep (ts, 0%nat) (tags_in_order (dom ts)))
    as [ts' n].
  cbn [snd] in *. rewrite Hn.
  assert (Hsize : size (mergeableTags ts)
                  = length (filter (fun tag => mergeableIn ts tag = true)
                                   (tags_in_order (dom ts)))).
  { rewrite <- (size_list_to_set (C:=gset string))
      by (apply NoDup_filter, tags_in_order_NoDup).
    f_equal. apply set_eq. intros tag. unfold mergeableTags.
    rewrite elem_of_list_to_set, list_elem_of_filter, elem_of_filter,
      elem_of_tags_in_order. done. }
  by rewrite Hsize.
Qed.

(** ** Vassal splitting: who is liberated, and when the pass breaks *)

Section SplitVassalsSpec.

Context (coalesceProvinces : gmap string Title → string → gset Z).

Lemma splitTitleStep_spec w before tag :
  (holderMissing w tag
   ∧ splitTitleStep coalesceProvinces w (Some before) tag = None)
  ∨ (¬ holderMissing w tag
     ∧ ∃ S, splitTitleStep coalesceProvinces w (Some before) tag = Some S
            ∧ ∀ x, x ∈ S ↔
                   x ∈ before ∨ liberatedFrom coalesceProvinces w tag x).
Proof.
  unfold splitTitleStep, holderMissing, liberatedFrom.
  destruct (isUntouchable tag) eqn:Hu.
  { right. split; [by intros [? _]|]. exists before. split; [done|].
    intros x. split; [by left|]. by intros [?|[? _]]. }
  destruct (titles w !! tag) as [t|] eqn:Ht; [|left; split; [|done]; auto].
  destruct (characters w !! holder t) as [h|] eqn:Hh;
    [|left; split; [|done]; split; [done|right; eauto]].
  right. split.
  { intros [_ [?|(t' & [= <-] & ?)]]; congruence. }
  destruct (isTribalOrNomadic h) eqn:Htribal.
  { exists before. split; [done|]. intros x. split; [by left|].
    intros [?|[_ (t' & h' & pre' & [= <-] & Hh' & Hno & _)]]; [done|].
    rewrite Hh in Hh'. injection Hh' as <-. congruence. }
  destruct (relevantVassalPrefix tag) as [pre|] eqn:Hpre.
  2:{ exists before. split; [done|]. intros x. split; [by left|].
      intros [?|[_ (t' & h' & pre' & _ & _ & _ & ? & _)]]; [done|done]. }
  fold (relevantCount coalesceProvinces (titles w) pre t).
  destruct (Z.eqb_spec (relevantCount coalesceProvinces (titles w) pre t) 0)
    as [Hz|Hnz].
  { exists before. split; [done|]. intros x. split; [by left|].
    intros [?|[_ (t' & h' & pre' & [= <-] & _ & _ & [= <-] & _ & _ & _
                  & Hne & _)]]; [done|done]. }
  eexists. split; [done|]. intros x. rewrite liberate_fold.
  rewrite elem_of_tags_in_order. split.
  - intros [?|(Hin & Hp & Hne & Hex)]; [by left|right].
    split; [done|]. exists t, h, pre. done.
  - intros [?|[_ (t' & h' & pre' & [= <-] & _ & _ & [= <-] & Hin & Hp & Hne
                   & _ & Hex)]]; [by left|right]. done.
Qed.

Lemma splitTitle_fold_None w l :
  foldl (splitTitleStep coalesceProvinces w) None l = None.
Proof. induction l as [|tag l IH]; [done|]. exact IH. Qed.

Lemma newIndeps_spec w (l : list string) before :
  ((∃ tag, tag ∈ l ∧ holderMissing w tag)
   ∧ foldl (splitTitleStep coalesceProvinces w) (Some before) l = None)
  ∨ ((∀ tag, tag ∈ l → ¬ holderMissing w tag)
     ∧ ∃ S, foldl (splitTitleStep coalesceProvinces w) (Some before) l
            = Some S
            ∧ ∀ x, x ∈ S ↔
                   x ∈ before
                   ∨ ∃ tag, tag ∈ l ∧ liberatedFrom coalesceProvinces w tag x).
Proof.
  revert before. induction l as [|tag l IH]; intros before; cbn [foldl].
  { right. split; [by intros ? ?%elem_of_nil|]. exists before.
    split; [done|]. intros x. split; [by left|].
    intros [?|(? & ?%elem_of_nil & _)]; done. }
  destruct (splitTitleStep_spec w before tag)
    as [[Hmiss ->]|[Hok (S1 & -> & HS1)]].
  { left. split; [|apply splitTitle_fold_None]. exists tag. split; [left|done]. }
  destruct (IH S1) as [[(tag' & Hin & Hmiss) ->]|[Hall (S & -> & HS)]].
  { left. split; [|done]. exists tag'. split; [by right|done]. }
  right. split.
  { intros tag' Hin. apply elem_of_cons in Hin as [->|Hin]; [done|].
    by apply Hall. }
  exists S. split; [done|]. intros x. rewrite HS, HS1. split.
  - intros [[?|?]|(tag' & Hin & ?)]; [by left|right..].
    + exists tag. split; [left|done].
    + exists tag'. split; [by right|done].
  - intros [?|(tag' & Hin & Hlib)]; [left; by left|].
    apply elem_of_cons in Hin as [->|Hin]; [left; by right|right; eauto].
Qed.

Lemma freeStep_spec w x :
  (liegeMissing w x ∧ freeStep (Some w) x = None)
  ∨ (¬ liegeMissing w x
     ∧ ∃ w1, freeStep (Some w) x = Some w1
             ∧ characters w1 = characters w
             ∧ independentTitles w1 = {[x]} ∪ independentTitles w
             ∧ ∀ y, y ≠ x → liegeMissing w1 y ↔ liegeMissing w y).
Proof.
  unfold freeStep, liegeMissing.
  destruct (titles w !! x) as [t|] eqn:Ht; [|left; auto].
  destruct (String.eqb_spec (liege t) "") as [Hl|Hl];
    [left; split; [right; eauto|done]|].
  right. split.
  { intros [?|(t' & [= <-] & ?)]; done. }
  eexists. split; [done|]. cbn [characters independentTitles titles].
  split; [done|]. split; [done|].
  intros y Hy. rewrite lookup_alter_ne by done.
  destruct (decide (liege t = y)) as [Hly|Hly].
  - rewrite Hly, lookup_alter_eq.
    destruct (titles w !! y) as [ty|]; cbn [fmap option_fmap option_map].
    + split; (intros [?|(t' & [= <-] & ?)]; [done|right; eauto]).
    + done.
  - by rewrite lookup_alter_ne.
Qed.

Lemma free_fold_None (l : list string) : foldl freeStep None l = None.
Proof. induction l as [|x l IH]; [done|]. exact IH. Qed.

Lemma free_spec (l : list string) w :
  NoDup l →
  ((∃ x, x ∈ l ∧ liegeMissing w x) ∧ foldl freeStep (Some w) l = None)
  ∨ ((∀ x, x ∈ l → ¬ liegeMissing w x)
     ∧ ∃ w', foldl freeStep (Some w) l = Some w'
             ∧ characters w' = characters w
             ∧ independentTitles w' = independentTitles w ∪ list_to_set l).
Proof.
  intros Hnd. revert w. induction Hnd as [|x l Hx Hnd IH]; intros w;
    cbn [foldl].
  { right. split; [by intros ? ?%elem_of_nil|]. exists w.
    repeat split. set_solver. }
  destruct (freeStep_spec w x)
    as [[Hmiss ->]|[Hok (w1 & -> & Hc1 & Hi1 & Hl1)]].
  { left. split; [|apply free_fold_None]. exists x. split; [left|done]. }
  destruct (IH w1) as [[(y & Hin & Hmiss) ->]|[Hall (w' & -> & Hc & Hi)]].
  { left. split; [|done]. exists y. split; [by right|].
    apply Hl1; [|done]. by intros ->. }
  right. split.
  { intros y Hin. apply elem_of_cons in Hin as [->|Hin]; [done|].
    rewrite <- Hl1 by (by intros ->). by apply Hall. }
  exists w'. split; [done|]. split; [congruence|].
  rewrite Hi, Hi1. cbn [list_to_set]. set_solver.
Qed.


End SplitVassalsSpec.

(** Property X11.  What a completed run of vassal splitting does to the
    independent titles: it adds exactly the vassals [x] of an
    independent title [tag] for which [tag] is none of the three
    untouchable titles, the holder of [tag] is neither tribal nor
    nomadic, [tag] is an empire and [x] a kingdom or [tag] is a kingdom
    and [x] a duchy, [x] has another holder than [tag], at least one
    vassal of that tier claims land, and the claim of [x] exceeds the
    threshold.  Characters and the holders of all titles stay as they
    were, and the number logged is the number of vassals marked. *)
Theorem splitVassals_liberates
    (coalesceProvinces : gmap string Title → string → gset Z)
    (w w' : World) (log : list LogEntry) :
  splitVassals coalesceProvinces w = Some (w', log) →
  ∃ marked : gset string,
    (∀ x, x ∈ marked ↔
          ∃ tag, tag ∈ independentTitles w
                 ∧ liberatedFrom coalesceProvinces w tag x)
    ∧ independentTitles w' = independentTitles w ∪ marked
    ∧ characters w' = characters w
    ∧ (∀ x, holderOf (titles w') x = holderOf (titles w) x)
    ∧ log = [(Info, "<> " +:+ pretty (size marked)
                    +:+ " vassals liberated from immediate integration.")].
Proof.
  unfold splitVassals, newIndepsOf. intros Hrun.
  destruct (newIndeps_spec coalesceProvinces w
              (tags_in_order (independentTitles w)) ∅)
    as [[_ Hnone]|[_ (marked & Hmark & Hmarked)]];
    [by rewrite Hnone in Hrun|].
  rewrite Hmark in Hrun.
  destruct (free_spec (tags_in_order marked) w (tags_in_order_NoDup _))
    as [[_ Hnone]|[_ (w1 & Hfree & Hchars & Hindeps)]];
    [by rewrite Hnone in Hrun|].
  rewrite Hfree in Hrun. injection Hrun as <- <-.
  exists marked. repeat split.
  - intros Hx. apply Hmarked in Hx as [Hx|(tag & Hin & ?)];
      [by apply elem_of_empty in Hx|].
    exists tag. by rewrite <- elem_of_tags_in_order.
  - intros (tag & Hin & ?). apply Hmarked. right. exists tag.
    by rewrite elem_of_tags_in_order.
  - rewrite Hindeps. f_equal. apply set_eq. intros x.
    by rewrite elem_of_list_to_set, elem_of_tags_in_order.
  - done.
  - destruct (free_fold _ _ _ Hfree) as (w0 & [= <-] & _ & Hholders).
    exact Hholders.
Qed.

Lemma splitVassals_liberates_witness :
  ∃ w' log marked,
    splitVassals coalesceProvincesOf splitRealm = Some (w', log)
    ∧ independentTitles w' = independentTitles splitRealm ∪ marked
    ∧ log = [(Info, "<> " +:+ pretty (size marked)
                    +:+ " vassals liberated from immediate integration.")].
Proof.
  assert (Hsome : match splitVassals coalesceProvincesOf splitRealm with
                  | Some _ => true
                  | None => false
                  end = true) by (vm_compute; reflexivity).
  destruct (splitVassals coalesceProvincesOf splitRealm)
    as [[w' log]|] eqn:Hrun; [|discriminate Hsome].
  destruct (splitVassals_liberates coalesceProvincesOf splitRealm w' log
              Hrun) as (marked & _ & Hindeps & _ & _ & Hlog).
  exists w', log, marked. split; [reflexivity|]. split; [exact Hindeps|].
  exact Hlog.
Defined.


(** ** The liberation threshold at its boundary *)

Section ThresholdBoundary.









End ThresholdBoundary.

Section LiberationBoundary.

Context (coalesceProvinces : gmap string Title → string → gset Z).



End LiberationBoundary.



Section BeyondAnySave.


End BeyondAnySave.


(** ** Recovery in the words of the specification *)

Section RecoverySpecFacts.

Context (State : Type)
        (getCharacters : State → gmap Z Recovery.Creed)
        (getMods : Configuration → list Recovery.Mod)
        (doesFolderExist : string → bool)
        (GetAllFilesInFolder : string → list string)
        (underLoadDynasties : string → State → State).

Lemma insanityCounter_lacking (s : State) :
  Recovery.insanityCounter State getCharacters s ≠ 0%nat
  ↔ RecoverySpec.lacksDefinitions (getCharacters s).
Proof.
  unfold Recovery.insanityCounter, RecoverySpec.lacksDefinitions.
  rewrite length_zero_iff_nil. split.
  - intros Hne.
    destruct (filter _ (in_order (getCharacters s))) as [|[id c] rest]
      eqn:Hfilter; [done|].
    assert (Hin : (id, c) ∈ filter (fun c : Z * Recovery.Creed =>
                                      Recovery.isInsane c.2 = true)
                                   (in_order (getCharacters s)))
      by (rewrite Hfilter; left).
    apply list_elem_of_filter in Hin as [Hinsane Hin].
    apply elem_of_in_order in Hin. exists id, c. split; [done|].
    unfold Recovery.isInsane in Hinsane. cbn [snd] in Hinsane.
    apply orb_true_iff in Hinsane as [H|H]; apply String.eqb_eq in H; auto.
  - intros (id & c & Hc & Hlack) Hnil.
    assert (Hin : (id, c) ∈ filter (fun c : Z * Recovery.Creed =>
                                      Recovery.isInsane c.2 = true)
                                   (in_order (getCharacters s))).
    { apply list_elem_of_filter. split; [|by apply elem_of_in_order].
      unfold Recovery.isInsane. cbn [snd].
      destruct Hlack as [-> | ->]; [done|]. apply orb_true_r. }
    rewrite Hnil in Hin. by apply elem_of_nil in Hin.
Qed.

Lemma insanityCounter_lacks (s : State) :
  Recovery.insanityCounter State getCharacters s = 0%nat
  ↔ ¬ RecoverySpec.lacksDefinitions (getCharacters s).
Proof.
  rewrite <- insanityCounter_lacking.
  destruct (decide (Recovery.insanityCounter State getCharacters s = 0%nat));
    tauto.
Qed.

Lemma loadMod_dynastyFiles (s : State) (m : Recovery.Mod) :
  Recovery.loadMod State doesFolderExist GetAllFilesInFolder
                   underLoadDynasties s m
  = foldl (fun s file => underLoadDynasties file s) s
          (RecoverySpec.dynastyFiles doesFolderExist GetAllFilesInFolder m).
Proof.
  unfold Recovery.loadMod, RecoverySpec.dynastyFiles, Recovery.dynastiesFolder.
  destruct (doesFolderExist (m.2 +:+ "/common/dynasties/")); [|done].
  generalize (GetAllFilesInFolder (m.2 +:+ "/common/dynasties/")).
  intros files. revert s. induction files as [|f files IH]; intros s; [done|].
  cbn [foldl fmap list_fmap]. apply IH.
Qed.

Lemma loadMods_afterSources (s : State) (tried : list Recovery.Mod) :
  foldl (Recovery.loadMod State doesFolderExist GetAllFilesInFolder
                          underLoadDynasties) s tried
  = RecoverySpec.afterSources State doesFolderExist GetAllFilesInFolder
                              underLoadDynasties s tried.
Proof.
  unfold RecoverySpec.afterSources. revert s.
  induction tried as [|m tried IH]; intros s; [done|].
  cbn [foldl fmap list_fmap concat]. rewrite foldl_app, IH.
  by rewrite loadMod_dynastyFiles.
Qed.

(** No entry of the log is an error. *)
Lemma rummage_no_error (mods : list Recovery.Mod) (s : State)
    (log : list LogEntry) :
  Forall (fun e : LogEntry => e.1 ≠ Error) log →
  Forall (fun e : LogEntry => e.1 ≠ Error)
         (Recovery.rummage State getCharacters doesFolderExist
                           GetAllFilesInFolder underLoadDynasties
                           mods s log).2.
Proof.
  revert s log. induction mods as [|m mods IH]; intros s log Hlog; [done|].
  cbn [Recovery.rummage].
  destruct (doesFolderExist (Recovery.dynastiesFolder m)); [|by apply IH].
  destruct (_ =? _)%nat.
  - cbn [snd]. repeat (apply Forall_app; split); try done;
      by repeat constructor.
  - apply IH. repeat (apply Forall_app; split); try done;
      by repeat constructor.
Qed.

Lemma verify_no_error (cfg : Configuration) (s : State) :
  Forall (fun e : LogEntry => e.1 ≠ Error)
         (Recovery.verifyReligionsAndCultures State getCharacters getMods
            doesFolderExist GetAllFilesInFolder underLoadDynasties cfg s).2.
Proof.
  unfold Recovery.verifyReligionsAndCultures.
  destruct (_ =? _)%nat; [by repeat constructor|].
  unfold Recovery.loadDynastiesFromMods.
  pose proof (rummage_no_error (getMods cfg) s
                [(Info, "*** Intermezzo ***");
                 (Info, "-> Locating mods in mod folder");
                 (Info, "-> Rummaging through mods in search of definitions.")])
    as Hlog.
  destruct (Recovery.rummage _ _ _ _ _ _ _ _) as [[s' sane] log].
  cbn [snd] in *.
  apply Forall_app. split; [by repeat constructor|].
  apply Forall_app. split; [by repeat constructor|].
  apply Forall_app. split; [apply Hlog; by repeat constructor|].
  apply Forall_app. split; [destruct sane; by repeat constructor|].
  by repeat constructor.
Qed.

End RecoverySpecFacts.

(** Claim C9.  [verifyReligionsAndCultures] calls the mod loader exactly
    when some character has an empty religion or an empty culture;
    otherwise it returns the state it was given.  The loader reads the
    mod sources in their order, under-loading every file of a source's
    dynasties folder: the state it returns is the state after the
    sources [tried], a prefix of the sources.  It never goes on after a
    source that leaves no character lacking, and it leaves sources
    unread only because none is lacking any more.  When characters are
    still lacking at the end, every source has been read and the warning
    of exhaustion is logged; when none is, that warning is not logged.
    No entry of the log is an error, and the function returns a state in
    every case. *)
Theorem verifyReligionsAndCultures_recovery
    (State : Type) (getCharacters : State → gmap Z Recovery.Creed)
    (getMods : Configuration → list Recovery.Mod)
    (doesFolderExist : string → bool)
    (GetAllFilesInFolder : string → list string)
    (underLoadDynasties : string → State → State)
    (cfg : Configuration) (s : State) :
  let lacking (st : State) :=
    RecoverySpec.lacksDefinitions (getCharacters st) in
  let after :=
    RecoverySpec.afterSources State doesFolderExist GetAllFilesInFolder
                              underLoadDynasties s in
  let r := Recovery.verifyReligionsAndCultures State getCharacters getMods
             doesFolderExist GetAllFilesInFolder underLoadDynasties cfg s in
  ((Info, "*** Intermezzo ***") ∈ r.2 ↔ lacking s)
  ∧ (¬ lacking s → r.1 = s)
  ∧ (lacking s →
     ∃ tried rest,
       getMods cfg = tried ++ rest
       ∧ r.1 = after tried
       ∧ (∀ pre x suf, tried = pre ++ x :: suf → lacking (after pre))
       ∧ (rest ≠ [] → ¬ lacking (after tried))
       ∧ (lacking r.1 →
          rest = [] ∧ (Warning, "... We did what we could.") ∈ r.2)
       ∧ (¬ lacking r.1 → (Warning, "... We did what we could.") ∉ r.2))
  ∧ (∀ e, e ∈ r.2 → e.1 ≠ Error).
Proof.
  intros lacking after r.
  pose proof (insanityCounter_lacks State getCharacters) as Hcount.
  assert (Hdec : ∀ st, lacking st
                       ↔ Recovery.insanityCounter State getCharacters st
                         ≠ 0%nat).
  { intros st. unfold lacking. by rewrite insanityCounter_lacking. }
  split; [|split; [|split]].
  - rewrite Hdec. subst r. unfold Recovery.verifyReligionsAndCultures.
    destruct (Nat.eqb_spec (Recovery.insanityCounter State getCharacters s) 0)
      as [Hsane|Hinsane].
    + split; [|done]. cbn [snd app]. intros Hin.
      apply elem_of_cons in Hin as [H|Hin]; [vm_compute in H; discriminate|].
      apply list_elem_of_singleton in Hin. vm_compute in Hin. discriminate.
    + split; [done|]. intros _.
      destruct (loadDynastiesFromMods_spec State getCharacters getMods
                  doesFolderExist GetAllFilesInFolder underLoadDynasties
                  cfg s Hinsane) as (_ & _ & _ & _ & _ & Hmark & _).
      destruct (Recovery.loadDynastiesFromMods _ _ _ _ _ _ cfg s)
        as [s' log]. cbn [snd app] in *. right. by right.
  - intros Hsane. subst r. unfold Recovery.verifyReligionsAndCultures.
    assert (Hz : Recovery.insanityCounter State getCharacters s = 0%nat)
      by (by apply Hcount).
    by rewrite Hz.
  - intros Hlack. apply Hdec in Hlack as Hinsane.
    destruct (loadDynastiesFromMods_spec State getCharacters getMods
                doesFolderExist GetAllFilesInFolder underLoadDynasties
                cfg s Hinsane)
      as (tried & rest & Hmods & Hst & Hbefore & Hmark & Hexh & Hok).
    assert (Hr : r = ((Recovery.loadDynastiesFromMods State getCharacters
                         getMods doesFolderExist GetAllFilesInFolder
                         underLoadDynasties cfg s).1,
                      [(Info, "-- Verifyling All Characters Have Religion And Culture Loaded")]
                      ++ [(Warning, "! " +:+ pretty (Recovery.insanityCounter
                                                  State getCharacters s)
                                    +:+ " characters have lacking definitions! Attempting recovery.")]
                      ++ (Recovery.loadDynastiesFromMods State getCharacters
                            getMods doesFolderExist GetAllFilesInFolder
                            underLoadDynasties cfg s).2)).
    { subst r. unfold Recovery.verifyReligionsAndCultures.
      rewrite (proj2 (Nat.eqb_neq _ _) Hinsane).
      by destruct (Recovery.loadDynastiesFromMods _ _ _ _ _ _ cfg s). }
    rewrite Hr. cbn [fst snd].
    rewrite loadMods_afterSources in Hst.
    exists tried, rest. split; [done|]. split; [exact Hst|].
    split; [|split; [|split]].
    + intros pre x suf Heq. apply Hdec.
      unfold after. rewrite <- loadMods_afterSources. by eapply Hbefore.
    + intros Hrest Hl. fold after in Hst. rewrite <- Hst in Hl.
      apply Hdec in Hl. by destruct (Hexh Hl) as [? _].
    + intros Hl. apply Hdec in Hl. destruct (Hexh Hl) as [-> Hin].
      split; [done|]. right. right. exact Hin.
    + intros Hl Hin.
      assert (Hz : Recovery.insanityCounter State getCharacters
                     (Recovery.loadDynastiesFromMods State getCharacters
                        getMods doesFolderExist GetAllFilesInFolder
                        underLoadDynasties cfg s).1 = 0%nat)
        by (by apply Hcount).
      apply (Hok Hz).
      apply elem_of_cons in Hin as [H|Hin]; [vm_compute in H; discriminate|].
      apply elem_of_cons in Hin as [H|Hin]; [|done].
      exfalso. injection H as H. vm_compute in H. discriminate.
  - intros e He.
    pose proof (verify_no_error State getCharacters getMods doesFolderExist
                  GetAllFilesInFolder underLoadDynasties cfg s) as Hlog.
    rewrite Forall_forall in Hlog. by apply Hlog.
Qed.

(** The recovery at work: with the mod [fix] among the sources the
    loader stops after it, nobody lacks a definition any more and the
    warning of exhaustion is not logged; the mod [late], whose file would
    empty the table, is never read.  Without [fix] every source is read,
    character 2 still has no culture, and the warning is logged. *)
Example verifyReligionsAndCultures_runs :
  let run getMods :=
    Recovery.verifyReligionsAndCultures RecoverySamples.State
      RecoverySamples.getCharacters getMods
      RecoverySamples.doesFolderExist RecoverySamples.GetAllFilesInFolder
      RecoverySamples.underLoadDynasties (mkConfiguration HRE_HRE "")
      RecoverySamples.troubled in
  run RecoverySamples.getMods
  = ({[ 1 := Recovery.mkCreed "catholic" "frankish";
        2 := Recovery.mkCreed "orthodox" "saxon" ]},
     [(Info, "-- Verifyling All Characters Have Religion And Culture Loaded");
      (Warning, "! 1 characters have lacking definitions! Attempting recovery.");
      (Info, "*** Intermezzo ***");
      (Info, "-> Locating mods in mod folder");
      (Info, "-> Rummaging through mods in search of definitions.");
      (Info, "Found something interesting in void");
      (Warning, "! 1 characters are still lacking definitions. Continuing with the rummage.");
      (Info, "Found something interesting in fix");
      (Info, "<> All 2 characters have been sanified. Cancelling rummage.");
      (Info, "*** Intermezzo End, back to scheduled run ***")])
  ∧ run RecoverySamples.getModsWithoutFix
    = (RecoverySamples.troubled,
       [(Info, "-- Verifyling All Characters Have Religion And Culture Loaded");
        (Warning, "! 1 characters have lacking definitions! Attempting recovery.");
        (Info, "*** Intermezzo ***");
        (Info, "-> Locating mods in mod folder");
        (Info, "-> Rummaging through mods in search of definitions.");
        (Info, "Found something interesting in void");
        (Warning, "! 1 characters are still lacking definitions. Continuing with the rummage.");
        (Warning, "... We did what we could.");
        (Info, "*** Intermezzo End, back to scheduled run ***")]).
Proof. split; vm_compute; reflexivity. Qed.
